(** * BLE advertisement scanner: deduplication table and framed report

    A shallow embedding of [src/main.c] (the hash table that deduplicates
    advertisement reports by MAC address, the scan callback that merges a
    report into it, and the periodic routine that writes the table to the
    UART and clears it), followed by the properties of the specification.

    Conventions.
    - A C unsigned integer of width [w] is a [Z] in [0, 2^w); every C
      operation that may leave the range is followed by the explicit
      reduction ([u8], [u16], [u32]).  The signed byte [rssi] is a [Z] in
      [-128, 128); its object representation is [u8 rssi].
    - An array is a [list]; [hash_table\[i\]] is [hash_table !! Z.to_nat i]
      and an access outside the list (undefined behaviour in C) makes the
      model return [None].
    - The pointer returned by [find_or_add_device] always has the form
      [&hash_table\[index\].device]; it is modelled by [Some index], and
      [NULL] by [None].
    - The [do ... while] loop of [find_or_add_device] is a [Fixpoint] on a
      bound of iterations; running out of the bound also gives [None], and
      [find_or_add_device_total] shows that [HASH_SIZE] iterations always
      suffice.
    - The bytes passed to [uart_poll_out] are returned as a list.  The byte
      order of the two 16-bit header fields is the host's: it is a parameter
      ([byte_order]) of the encoder.
    - The model is sequential: the scan callback and the timer handler are
      steps that do not interleave. *)

From stdpp Require Import base option list numbers.
From Stdlib Require Import ZArith Lia.

Local Open Scope Z_scope.

(** ** Constants *)

Definition UART_HEADER_MAGIC : Z := 85.      (* 0x55 *)
Definition UART_HEADER_LENGTH : nat := 4.
Definition MAX_DEVICES : Z := 1024.
Definition HASH_SIZE : Z := 1024.
Definition HASH_MASK : Z := HASH_SIZE - 1.

(** ** Fixed-width integers *)

Definition u8 (x : Z) : Z := x mod 2 ^ 8.
Definition u16 (x : Z) : Z := x mod 2 ^ 16.
Definition u32 (x : Z) : Z := x mod 2 ^ 32.

(** [memset (dst, c, n)] and [memcpy (dst, src, n)] on byte arrays. *)
Definition memset (dst : list Z) (c : Z) (n : nat) : list Z :=
  replicate n c ++ drop n dst.

Definition memcpy (dst src : list Z) (n : nat) : list Z :=
  take n src ++ drop n dst.

(** [memcmp (a, b, n) == 0]. *)
Definition memcmp_eq (a b : list Z) (n : nat) : bool :=
  bool_decide (take n a = take n b).

(** ** Data *)

Inductive entry_state : Set :=
| ENTRY_EMPTY
| ENTRY_OCCUPIED
| ENTRY_DELETED.

#[global] Instance entry_state_eq_dec : EqDecision entry_state.
Proof. solve_decision. Defined.

Record device_data : Set := mk_device_data {
  addr : list Z;       (* uint8_t addr[6] *)
  addr_type : Z;       (* uint8_t *)
  adv_type : Z;        (* uint8_t *)
  rssi : Z;            (* int8_t *)
  data_len : Z;        (* uint8_t *)
  data : list Z;       (* uint8_t data[31] *)
  n_adv : Z            (* uint8_t *)
}.

Record buffer_header_t : Set := mk_buffer_header {
  header : list Z;     (* uint8_t header[UART_HEADER_LENGTH] *)
  sequence : Z;        (* uint8_t *)
  n_adv_raw : Z;       (* uint16_t *)
  n_mac : Z            (* uint16_t *)
}.

Record hash_entry : Set := mk_hash_entry {
  state : entry_state;
  device : device_data
}.

(** The file-scope variables of the program. *)
Record globals : Set := mk_globals {
  hash_table : list hash_entry;
  buffer_header : buffer_header_t;
  buffer_active : bool;
  msg_sequence : Z;    (* uint8_t *)
  hash_entries : Z     (* uint16_t *)
}.

(** What the Bluetooth stack hands to the scan callback: [addr->a.val],
    [addr->type], [rssi], [adv_type] and the bytes of [buf] ([buf->len] is
    their number). *)
Record adv_report : Set := mk_adv_report {
  rep_addr : list Z;
  rep_addr_type : Z;
  rep_rssi : Z;
  rep_adv_type : Z;
  rep_data : list Z
}.

(** All-zero objects, as left by [memset (.., 0, ..)] and by static
    initialisation. *)
Definition zero_device : device_data :=
  mk_device_data (replicate 6 0) 0 0 0 0 (replicate 31 0) 0.

Definition zero_entry : hash_entry := mk_hash_entry ENTRY_EMPTY zero_device.

Definition zero_header : buffer_header_t :=
  mk_buffer_header (replicate UART_HEADER_LENGTH 0) 0 0 0.

(** ** [hash_mac] *)

Definition hash_step (hash b : Z) : Z :=
  u32 (u32 (u32 (Z.shiftl hash 5) + hash) + b).

Definition hash_mac (mac : list Z) : Z :=
  Z.land (fold_left hash_step (take 6 mac) 0) HASH_MASK.

(** ** [find_or_add_device] *)

Definition is_occupied (e : hash_entry) : bool :=
  bool_decide (state e = ENTRY_OCCUPIED).

(** The insertion branch: the slot becomes occupied, the address is copied,
    [n_adv] is cleared, and both counters are incremented. *)
Definition claim_slot (e : hash_entry) (mac : list Z) : hash_entry :=
  let d := device e in
  mk_hash_entry ENTRY_OCCUPIED
    (mk_device_data (memcpy (addr d) mac 6) (addr_type d) (adv_type d)
       (rssi d) (data_len d) (data d) 0).

Definition insert_device (g : globals) (index : Z) (e : hash_entry)
    (mac : list Z) : globals :=
  let h := buffer_header g in
  mk_globals (<[Z.to_nat index := claim_slot e mac]> (hash_table g))
    (mk_buffer_header (header h) (sequence h) (n_adv_raw h) (u16 (n_mac h + 1)))
    (buffer_active g) (msg_sequence g) (u16 (hash_entries g + 1)).

Fixpoint probe (fuel : nat) (g : globals) (mac : list Z)
    (index original_index : Z) : option (globals * option Z) :=
  match fuel with
  | O => None
  | S fuel' =>
    e ← hash_table g !! Z.to_nat index;
    if is_occupied e && memcmp_eq (addr (device e)) mac 6 then
      Some (g, Some index)
    else if negb (is_occupied e) then
      if MAX_DEVICES <=? n_mac (buffer_header g) then Some (g, None)
      else if MAX_DEVICES <=? hash_entries g then Some (g, None)
      else Some (insert_device g index e mac, Some index)
    else
      let index' := Z.land (u32 (index + 1)) HASH_MASK in
      if index' =? original_index then Some (g, None)
      else probe fuel' g mac index' original_index
  end.

Definition find_or_add_device (g : globals) (mac : list Z)
    : option (globals * option Z) :=
  let index := hash_mac mac in
  probe (Z.to_nat HASH_SIZE) g mac index index.

(** ** [scan_cb] *)

Definition set_n_adv_raw (g : globals) (v : Z) : globals :=
  let h := buffer_header g in
  mk_globals (hash_table g)
    (mk_buffer_header (header h) (sequence h) v (n_mac h))
    (buffer_active g) (msg_sequence g) (hash_entries g).

Definition set_hash_table (g : globals) (t : list hash_entry) : globals :=
  mk_globals t (buffer_header g) (buffer_active g) (msg_sequence g)
    (hash_entries g).

Definition set_buffer_active (g : globals) (b : bool) : globals :=
  mk_globals (hash_table g) (buffer_header g) b (msg_sequence g)
    (hash_entries g).

(** The assignments of [scan_cb] through the pointer [device]. *)
Definition update_device (d : device_data) (r : adv_report) : device_data :=
  let len := u8 (Z.min (Z.of_nat (length (rep_data r))) 31) in
  let cleared := memset (data d) 0 31 in
  let copied := memcpy cleared (rep_data r) (Z.to_nat len) in
  mk_device_data (addr d) (rep_addr_type r) (rep_adv_type r) (rep_rssi r)
    len copied (u8 (n_adv d + 1)).

Definition scan_cb (g : globals) (r : adv_report) : option globals :=
  if negb (buffer_active g) then Some g
  else
    let g1 := set_n_adv_raw g (u16 (n_adv_raw (buffer_header g) + 1)) in
    res ← find_or_add_device g1 (rep_addr r);
    match res.2 with
    | None => Some res.1
    | Some index =>
      e ← hash_table res.1 !! Z.to_nat index;
      Some (set_hash_table res.1
              (<[Z.to_nat index := mk_hash_entry (state e)
                                     (update_device (device e) r)]>
                 (hash_table res.1)))
    end.

(** ** [send_buffer] *)

Inductive byte_order : Set := LittleEndian | BigEndian.

Definition u16_bytes (bo : byte_order) (v : Z) : list Z :=
  match bo with
  | LittleEndian => [v mod 256; v / 256]
  | BigEndian => [v / 256; v mod 256]
  end.

(** Object representation of the packed structures. *)
Definition buffer_header_bytes (bo : byte_order) (h : buffer_header_t)
    : list Z :=
  header h ++ [sequence h] ++ u16_bytes bo (n_adv_raw h)
    ++ u16_bytes bo (n_mac h).

Definition device_data_bytes (d : device_data) : list Z :=
  addr d ++ [addr_type d; adv_type d; u8 (rssi d); data_len d] ++ data d
    ++ [n_adv d].

Definition sizeof_buffer_header : nat := 9.
Definition sizeof_device_data : nat := 42.

Definition send_entry (e : hash_entry) : list Z :=
  if is_occupied e then take sizeof_device_data (device_data_bytes (device e))
  else [].

Definition send_buffer (bo : byte_order) (g : globals) : list Z :=
  take sizeof_buffer_header (buffer_header_bytes bo (buffer_header g))
    ++ flat_map send_entry (take (Z.to_nat HASH_SIZE) (hash_table g)).

(** ** [reset_buffer] and [sampling_timer_handler] *)

Definition reset_buffer (g : globals) : globals :=
  let h0 := zero_header in
  let h1 := mk_buffer_header
              (memset (header h0) UART_HEADER_MAGIC UART_HEADER_LENGTH)
              (msg_sequence g) 0 0 in
  mk_globals (replicate (Z.to_nat HASH_SIZE) zero_entry) h1
    (buffer_active g) (u8 (msg_sequence g + 1)) 0.

(** Returns the bytes written to the UART and the next state. *)
Definition sampling_timer_handler (bo : byte_order) (g : globals)
    : list Z * globals :=
  let g1 := set_buffer_active g false in
  let out := send_buffer bo g1 in
  let g2 := reset_buffer g1 in
  (out, set_buffer_active g2 true).

(** ** Program start *)

(** Static initialisation. *)
Definition initial_globals : globals :=
  mk_globals (replicate (Z.to_nat HASH_SIZE) zero_entry) zero_header false 0 0.

(** [main], up to the start of the timer and of the scan. *)
Definition main_init : globals :=
  set_buffer_active (reset_buffer initial_globals) true.

(** ** The probe sequence *)

(** The slot visited after [k] steps from [home]. *)
Definition slot (home : Z) (k : nat) : Z := (home + Z.of_nat k) mod HASH_SIZE.

(** The entry holds a device other than [mac]: the probe moves on. *)
Definition other_device (mac : list Z) (e : hash_entry) : Prop :=
  state e = ENTRY_OCCUPIED ∧ take 6 (addr (device e)) ≠ take 6 mac.

(** The first [k] slots of the probe sequence of [mac] hold other devices. *)
Definition passes_over (g : globals) (mac : list Z) (k : nat) : Prop :=
  ∀ j : nat, (j < k)%nat →
    ∃ e, hash_table g !! Z.to_nat (slot (hash_mac mac) j) = Some e
         ∧ other_device mac e.

(** A boolean form of [passes_over], to evaluate on concrete tables. *)
Definition passes_overb (g : globals) (mac : list Z) (k : nat) : bool :=
  forallb (λ j : nat,
    match hash_table g !! Z.to_nat (slot (hash_mac mac) j) with
    | Some e => is_occupied e && negb (memcmp_eq (addr (device e)) mac 6)
    | None => false
    end) (seq 0 k).

(** ** Runs of the program *)

(** The reports of one window, delivered in order. *)
Fixpoint scan_all (g : globals) (rs : list adv_report) : option globals :=
  match rs with
  | [] => Some g
  | r :: rs' => g' ← scan_cb g r; scan_all g' rs'
  end.

(** Several windows: the reports of each one, then the timer.  The result
    holds the frames written to the UART, in order. *)
Fixpoint run_windows (bo : byte_order) (g : globals)
    (ws : list (list adv_report)) : option (list (list Z) * globals) :=
  match ws with
  | [] => Some ([], g)
  | w :: ws' =>
    g1 ← scan_all g w;
    let fl := sampling_timer_handler bo g1 in
    rest ← run_windows bo fl.2 ws';
    Some (fl.1 :: rest.1, rest.2)
  end.

(** ** Well-formed inputs and states *)

Definition is_u8 (x : Z) : Prop := 0 <= x < 256.

#[global] Instance is_u8_dec x : Decision (is_u8 x).
Proof. unfold is_u8. apply _. Defined.

(** A report as the C types allow it: a six-byte address, bytes in range,
    a signed byte for the signal strength, a 16-bit [buf->len]. *)
Definition wf_report (r : adv_report) : Prop :=
  length (rep_addr r) = 6%nat
  ∧ Forall is_u8 (rep_addr r)
  ∧ is_u8 (rep_addr_type r)
  ∧ -128 <= rep_rssi r < 128
  ∧ is_u8 (rep_adv_type r)
  ∧ Forall is_u8 (rep_data r)
  ∧ Z.of_nat (length (rep_data r)) < 65536.

(** The bytes of [data] from [data_len] on are zero. *)
Definition zero_padded (d : device_data) : Prop :=
  ∀ j : nat, data_len d <= Z.of_nat j → (j < 31)%nat → data d !! j = Some 0.

Definition wf_device (d : device_data) : Prop :=
  length (addr d) = 6%nat
  ∧ Forall is_u8 (addr d)
  ∧ is_u8 (addr_type d)
  ∧ is_u8 (adv_type d)
  ∧ -128 <= rssi d < 128
  ∧ 0 <= data_len d <= 31
  ∧ length (data d) = 31%nat
  ∧ Forall is_u8 (data d)
  ∧ is_u8 (n_adv d).

Definition wf_entry (e : hash_entry) : Prop :=
  state e ≠ ENTRY_DELETED ∧ wf_device (device e) ∧ zero_padded (device e).

(** The number of slots tagged [ENTRY_OCCUPIED]. *)
Definition occupied_count (g : globals) : nat :=
  length (List.filter is_occupied (hash_table g)).

(** The records of the occupied slots, in slot order. *)
Definition occupied_devices (g : globals) : list device_data :=
  device <$> List.filter is_occupied (hash_table g).

(** The slot holds the record of [mac]. *)
Definition holds (mac : list Z) (e : hash_entry) : Prop :=
  state e = ENTRY_OCCUPIED ∧ addr (device e) = mac.

(** Every occupied slot lies on the probe sequence of its own address, and
    the slots before it on that sequence hold other devices. *)
Definition chained (g : globals) : Prop :=
  ∀ (i : nat) e, hash_table g !! i = Some e → state e = ENTRY_OCCUPIED →
    ∃ k : nat, (k < Z.to_nat HASH_SIZE)%nat
      ∧ Z.to_nat (slot (hash_mac (addr (device e))) k) = i
      ∧ passes_over g (addr (device e)) k.

(** The invariant of the program between two steps. *)
Definition inv (g : globals) : Prop :=
  length (hash_table g) = Z.to_nat HASH_SIZE
  ∧ Forall wf_entry (hash_table g)
  ∧ chained g
  ∧ header (buffer_header g) = replicate UART_HEADER_LENGTH UART_HEADER_MAGIC
  ∧ is_u8 (sequence (buffer_header g))
  ∧ 0 <= n_adv_raw (buffer_header g) < 65536
  ∧ n_mac (buffer_header g) = Z.of_nat (occupied_count g)
  ∧ hash_entries g = Z.of_nat (occupied_count g)
  ∧ msg_sequence g = u8 (sequence (buffer_header g) + 1)
  ∧ buffer_active g = true.

(** The states of the program after [main] has started the scan: reports
    and timer expiries arrive in any order. *)
Inductive reachable : globals → Prop :=
| reach_main : reachable main_init
| reach_scan g r g' :
    reachable g → wf_report r → scan_cb g r = Some g' → reachable g'
| reach_timer bo g :
    reachable g → reachable (sampling_timer_handler bo g).2.

(** The states in which a window begins: after the reset of [main] and
    after the reset of each timer expiry. *)
Inductive window_start : globals → Prop :=
| start_main : window_start main_init
| start_timer bo g :
    reachable g → window_start (sampling_timer_handler bo g).2.

(** ** Observations of one identifier within a window *)

Definition reports_of (mac : list Z) (rs : list adv_report)
    : list adv_report :=
  List.filter (λ r, bool_decide (rep_addr r = mac)) rs.

(** [find_or_add_device], as called by [scan_cb] for each report of [mac],
    did not return [NULL]. *)
Fixpoint never_full (g : globals) (rs : list adv_report) (mac : list Z)
    : bool :=
  match rs with
  | [] => true
  | r :: rs' =>
    match scan_cb g r with
    | None => false
    | Some g' =>
      (if bool_decide (rep_addr r = mac) then
         match find_or_add_device
                 (set_n_adv_raw g (u16 (n_adv_raw (buffer_header g) + 1)))
                 mac with
         | Some (_, Some _) => true
         | _ => false
         end
       else true) && never_full g' rs' mac
    end
  end.

(** What a record holds after report [r] has been merged into it, with
    [n] as the resulting counter. *)
Definition recorded (mac : list Z) (r : adv_report) (n : Z) : device_data :=
  let len := Z.min (Z.of_nat (length (rep_data r))) 31 in
  mk_device_data mac (rep_addr_type r) (rep_adv_type r) (rep_rssi r) len
    (take (Z.to_nat len) (rep_data r) ++ replicate (31 - Z.to_nat len) 0) n.

(** ** Decoding a frame by the layout of the report format *)

Definition u16_of_bytes (bo : byte_order) (b0 b1 : Z) : Z :=
  match bo with
  | LittleEndian => b0 + 256 * b1
  | BigEndian => 256 * b0 + b1
  end.

Definition s8_of_byte (b : Z) : Z := if b <? 128 then b else b - 256.

(** Header: sync pattern at 0..3, sequence at 4, raw event count at 5..6,
    unique count at 7..8. *)
Definition decode_header (bo : byte_order) (bs : list Z)
    : option buffer_header_t :=
  match bs with
  | [s0; s1; s2; s3; sq; r0; r1; u0; u1] =>
    Some (mk_buffer_header [s0; s1; s2; s3] sq
            (u16_of_bytes bo r0 r1) (u16_of_bytes bo u0 u1))
  | _ => None
  end.

(** Record: identifier at 0..5, identifier kind at 6, event kind at 7,
    signal strength at 8, payload length at 9, payload at 10..40,
    observation count at 41. *)
Definition decode_device (bs : list Z) : option device_data :=
  if bool_decide (length bs = 42%nat) then
    match drop 6 bs with
    | ty :: adv :: rs :: len :: rest =>
      Some (mk_device_data (take 6 bs) ty adv (s8_of_byte rs) len
              (take 31 rest) (nth 31 rest 0))
    | _ => None
    end
  else None.

Fixpoint decode_devices (n : nat) (bs : list Z) : option (list device_data) :=
  match n with
  | O => if bool_decide (bs = []) then Some [] else None
  | S n' =>
    d ← decode_device (take 42 bs);
    ds ← decode_devices n' (drop 42 bs);
    Some (d :: ds)
  end.

(** The receiver reads the header, then as many records as its unique
    count says; nothing may follow them. *)
Definition decode_frame (bo : byte_order) (bs : list Z)
    : option (buffer_header_t * list device_data) :=
  h ← decode_header bo (take 9 bs);
  ds ← decode_devices (Z.to_nat (n_mac h)) (drop 9 bs);
  Some (h, ds).

(** ** Auxiliary notions for the statements *)

(** The entry that [find_or_add_device] writes when it claims the slot
    that held [e]. *)
Definition claimed_entry (e : hash_entry) (mac : list Z) : hash_entry :=
  mk_hash_entry ENTRY_OCCUPIED
    (mk_device_data (take 6 mac ++ drop 6 (addr (device e)))
       (addr_type (device e)) (adv_type (device e)) (rssi (device e))
       (data_len (device e)) (data (device e)) 0).

(** The state after the report [r] has been recorded in the slot that held
    [e], with [n] the previous value of the counter. *)
Definition recorded_state (g : globals) (r : adv_report) (i : nat)
    (e : hash_entry) (n : Z) : globals :=
  let h := buffer_header g in
  let fresh := if is_occupied e then 0 else 1 in
  mk_globals
    (<[i := mk_hash_entry ENTRY_OCCUPIED (recorded (rep_addr r) r (u8 (n + 1)))]>
       (hash_table g))
    (mk_buffer_header (header h) (sequence h) (u16 (n_adv_raw h + 1))
       (n_mac h + fresh))
    (buffer_active g) (msg_sequence g) (hash_entries g + fresh).

(** The arrays have their declared sizes. *)
Definition well_sized (g : globals) : Prop :=
  length (hash_table g) = Z.to_nat HASH_SIZE
  ∧ Forall (λ e, length (addr (device e)) = 6%nat
                 ∧ length (data (device e)) = 31%nat) (hash_table g).

(** The table holds the record [d] for [mac]; the table holds no record
    for [mac]. *)
Definition record_at (g : globals) (mac : list Z) (d : device_data) : Prop :=
  ∃ (i : nat) e, hash_table g !! i = Some e ∧ holds mac e ∧ device e = d.

Definition absent (g : globals) (mac : list Z) : Prop :=
  ∀ (i : nat) e, hash_table g !! i = Some e → ¬ holds mac e.

(** The most recent report of [mac] in [rs]. *)
Fixpoint last_report (mac : list Z) (rs : list adv_report)
    : option adv_report :=
  match rs with
  | [] => None
  | r :: rs' =>
    match last_report mac rs' with
    | Some r' => Some r'
    | None => if bool_decide (rep_addr r = mac) then Some r else None
    end
  end.

(** ** Concrete reports and states used in examples *)

(** 1024 reports with distinct addresses. *)
Definition sample_report (k : Z) : adv_report :=
  mk_adv_report [0; 0; 0; 0; k / 32; k mod 32] 1 (-60) 0 [2; 1; 6].

Definition fill_reports : list adv_report :=
  sample_report <$> seqZ 0 HASH_SIZE.

(** A report from an address that is not among [fill_reports]. *)
Definition extra_report : adv_report :=
  mk_adv_report [1; 2; 3; 4; 5; 6] 0 (-70) 3 [7; 7].

(** The table after all of [fill_reports] have been recorded from the
    first window on. *)
Definition full_state : globals :=
  default main_init (scan_all main_init fill_reports).

(** The first window after one report. *)
Definition one_report_state : globals :=
  default main_init (scan_cb main_init extra_report).

(** A report with a long payload, and a later short one from the same
    address. *)
Definition long_report : adv_report :=
  mk_adv_report [1; 2; 3; 4; 5; 6] 0 (-40) 0 (replicate 40 255).

Definition short_report : adv_report :=
  mk_adv_report [1; 2; 3; 4; 5; 6] 1 (-90) 4 [9; 8].

(** A first window with the long report, and a second window that reuses
    the slot. *)
Definition first_window_state : globals :=
  default main_init (scan_all main_init [long_report]).

Definition second_window_start : globals :=
  (sampling_timer_handler LittleEndian first_window_state).2.

Definition reuse_state : globals :=
  default second_window_start
    (scan_all second_window_start [long_report; short_report]).

(** The same report delivered 256 times. *)
Definition repeated_reports : list adv_report := replicate 256 extra_report.

(** A report whose address hashes to slot 0. *)
Definition home_report : adv_report :=
  mk_adv_report [0; 0; 0; 0; 0; 0] 0 (-50) 0 [1].

(** A state that the program does not reach: the table is empty and both
    counters are at [MAX_DEVICES]. *)
Definition saturated_state : globals :=
  mk_globals (hash_table main_init)
    (mk_buffer_header (header (buffer_header main_init)) 0 0 MAX_DEVICES)
    true 1 MAX_DEVICES.

(** ** Decision procedures *)

#[global] Instance other_device_dec mac e : Decision (other_device mac e).
Proof. unfold other_device. apply _. Defined.

#[global] Instance wf_report_dec r : Decision (wf_report r).
Proof. unfold wf_report. apply _. Defined.

(** The state left by [find_or_add_device] after it has claimed a slot of
    the empty table. *)
Definition claimed_state : globals :=
  default main_init (fst <$> find_or_add_device main_init (rep_addr extra_report)).

(** ** Identifiers observed and identifiers recorded *)

(** The addresses of a list of reports, and the number of distinct ones. *)
Definition seen (rs : list adv_report) : list (list Z) := rep_addr <$> rs.

Definition distinct_count (rs : list adv_report) : nat :=
  length (remove_dups (seen rs)).

(** The addresses stored in the occupied slots, in slot order. *)
Definition recorded_addrs (g : globals) : list (list Z) :=
  addr <$> occupied_devices g.

(** The sum of the [n_adv] counters of the occupied slots. *)
Definition adv_total (g : globals) : Z :=
  foldr Z.add 0 (n_adv <$> occupied_devices g).

(** The table agrees with the reports [pre] recorded so far. *)
Definition agrees (g : globals) (pre : list adv_report) : Prop :=
  ∀ mac, mac ∈ recorded_addrs g ↔ mac ∈ seen pre.

(** The table holds the first [HASH_SIZE] distinct addresses of [pre] at
    most: as many records as distinct addresses, up to [HASH_SIZE], and
    exactly the addresses seen while they fit. *)
Definition tracks (g : globals) (pre : list adv_report) : Prop :=
  inv g
  ∧ occupied_count g = Nat.min (distinct_count pre) (Z.to_nat HASH_SIZE)
  ∧ ((distinct_count pre <= Z.to_nat HASH_SIZE)%nat → agrees g pre).

(** A few reports of three identifiers. *)
Definition five_reports_list : list adv_report :=
  [home_report; extra_report; home_report; sample_report 5; home_report].

(** Every record has counted the reports of its identifier in [pre], and
    the counters add up to the number of reports. *)
Definition counts_exactly (g : globals) (pre : list adv_report) : Prop :=
  inv g
  ∧ agrees g pre
  ∧ (∀ (i : nat) e, hash_table g !! i = Some e → state e = ENTRY_OCCUPIED →
       n_adv (device e)
       = Z.of_nat (length (reports_of (addr (device e)) pre)))
  ∧ adv_total g = Z.of_nat (length pre).

(** The contribution of a slot to [adv_total]. *)
Definition adv_weight (e : hash_entry) : Z :=
  if is_occupied e then n_adv (device e) else 0.

(** ** Windows and the byte stream *)

(** The state in which the window with sequence number [s] begins. *)
Definition fresh_window (s : Z) : globals :=
  mk_globals (replicate (Z.to_nat HASH_SIZE) zero_entry)
    (mk_buffer_header (replicate UART_HEADER_LENGTH UART_HEADER_MAGIC) s 0 0)
    true (u8 (s + 1)) 0.

(** The frame written at the end of a window that began with sequence
    number [s] and received the reports [rs]. *)
Definition window_frame (bo : byte_order) (s : Z) (rs : list adv_report)
    : option (list Z) :=
  g ← scan_all (fresh_window s) rs;
  Some (sampling_timer_handler bo g).1.

(** A receiver cuts the byte stream of the UART into frames: it reads a
    header and takes as many records as its unique count says, again and
    again.  [fuel] bounds the number of frames. *)
Fixpoint split_frames (fuel : nat) (bo : byte_order) (bs : list Z)
    : option (list (list Z)) :=
  if bool_decide (bs = []) then Some []
  else
    match fuel with
    | O => None
    | S fuel' =>
      h ← decode_header bo (take 9 bs);
      let n := (9 + 42 * Z.to_nat (n_mac h))%nat in
      if bool_decide (n <= length bs)%nat then
        rest ← split_frames fuel' bo (drop n bs);
        Some (take n bs :: rest)
      else None
    end.

(** A frame written from a state that satisfies the invariant. *)
Definition framed (bo : byte_order) (f : list Z) : Prop :=
  ∃ g, inv g ∧ f = send_buffer bo g.

(** ** [uart_init] and [main] *)

Definition SAMPLING_INTERVAL_MS : Z := 7000.

(** The calls of [main] to the kernel and to the Bluetooth stack. *)
Inductive call : Set :=
| device_is_ready
| bt_enable
| k_timer_start (duration period : Z)
| bt_le_scan_start.

(** The variables of the program and the calls made so far, the earliest
    first, each with the variables as they were when it was made. *)
Record system : Set := mk_system {
  sys_globals : globals;
  sys_log : list (call * globals)
}.

(** A step of [main] runs on the system and either goes on with a value
    ([inl]) or makes [main] return a code ([inr]). *)
Definition run (A : Type) : Type := system → system * (A + Z).

#[global] Instance run_ret : MRet run := λ A a s, (s, inl a).

#[global] Instance run_bind : MBind run := λ A B f m s,
  match m s with
  | (s', inl a) => f a s'
  | (s', inr code) => (s', inr code)
  end.

Definition return_code {A : Type} (code : Z) : run A := λ s, (s, inr code).

Definition called (c : call) : run () := λ s,
  (mk_system (sys_globals s) (sys_log s ++ [(c, sys_globals s)]), inl ()).

Definition assign (f : globals → globals) : run () := λ s,
  (mk_system (f (sys_globals s)) (sys_log s), inl ()).

(** [device_ready] is the result of [device_is_ready (uart_dev)]. *)
Definition uart_init (device_ready : bool) : run Z :=
  called device_is_ready;;
  if negb device_ready then mret (-1) else mret 0.

(** [main].  The results of [device_is_ready], [bt_enable] and
    [bt_le_scan_start] are parameters.  The computation ends with [inr err]
    when [main] returns [err], and with [inl ()] when it enters its endless
    loop. *)
Definition main (device_ready : bool) (bt_enable_err scan_start_err : Z)
    : run () :=
  err ← uart_init device_ready;
  if negb (err =? 0) then return_code err
  else
    called bt_enable;;
    let err := bt_enable_err in
    if negb (err =? 0) then return_code err
    else
      assign reset_buffer;;
      assign (λ g, set_buffer_active g true);;
      called (k_timer_start SAMPLING_INTERVAL_MS SAMPLING_INTERVAL_MS);;
      called bt_le_scan_start;;
      let err := scan_start_err in
      if negb (err =? 0) then return_code err
      else mret ().

(** The system when [main] is entered: static initialisation, no call
    made. *)
Definition boot : system := mk_system initial_globals [].

(** The variables as static initialisation leaves them, and as they are
    when the first window begins, field by field. *)
Definition static_state : globals :=
  mk_globals (replicate 1024 (mk_hash_entry ENTRY_EMPTY zero_device))
    (mk_buffer_header [0; 0; 0; 0] 0 0 0) false 0 0.

Definition first_window : globals :=
  mk_globals (replicate 1024 (mk_hash_entry ENTRY_EMPTY zero_device))
    (mk_buffer_header [85; 85; 85; 85] 0 0 0) true 1 0.

(** * Properties *)

(** ** The hasher *)

Lemma hash_step_horner h b : hash_step h b = u32 (h * 33 + b).
Proof.
  unfold hash_step, u32. rewrite Z.shiftl_mul_pow2 by lia.
  rewrite Zplus_mod_idemp_l, <- Z.add_assoc, Zplus_mod_idemp_l. f_equal. lia.
Qed.

Lemma u32_idemp x : u32 (u32 x) = u32 x.
Proof. unfold u32. by rewrite Zmod_mod. Qed.

Lemma u32_horner_congr x y b :
  u32 x = u32 y → u32 (x * 33 + b) = u32 (y * 33 + b).
Proof.
  unfold u32. intros Hxy.
  rewrite <- (Zplus_mod_idemp_l (x * 33)), <- (Zmult_mod_idemp_l x), Hxy.
  by rewrite Zmult_mod_idemp_l, Zplus_mod_idemp_l.
Qed.

Lemma fold_hash_step_horner l : ∀ h h',
  u32 h = u32 h' →
  u32 (fold_left hash_step l h) = u32 (fold_left (λ a b, a * 33 + b) l h').
Proof.
  induction l as [|b l IH]; intros h h' Hh; [done|]. cbn [fold_left].
  apply IH. rewrite hash_step_horner, u32_idemp. by apply u32_horner_congr.
Qed.

Lemma land_hash_mask x : Z.land x HASH_MASK = x mod HASH_SIZE.
Proof. exact (Z.land_ones x 10 ltac:(lia)). Qed.

Lemma u32_mod_hash_size x : u32 x mod HASH_SIZE = x mod HASH_SIZE.
Proof. unfold u32. apply Z.mod_mod_divide. exists (2 ^ 22). reflexivity. Qed.

Lemma hash_mac_range mac : 0 <= hash_mac mac < HASH_SIZE.
Proof.
  unfold hash_mac. rewrite land_hash_mask. apply Z.mod_pos_bound.
  unfold HASH_SIZE. lia.
Qed.

(** C8. For a six-byte identifier [b0 .. b5] the hasher returns
    [(((((b0*33+b1)*33+b2)*33+b3)*33+b4)*33+b5)], reduced to 32 bits, masked
    with [HASH_SIZE - 1].  Since [HASH_SIZE] divides [2^32] this is the
    polynomial modulo [HASH_SIZE], an index in [0, HASH_SIZE); [hash_mac] is
    a function of the six bytes, so equal identifiers have equal indices. *)
Theorem hash_mac_horner (b0 b1 b2 b3 b4 b5 : Z) :
  let poly := ((((b0 * 33 + b1) * 33 + b2) * 33 + b3) * 33 + b4) * 33 + b5 in
  hash_mac [b0; b1; b2; b3; b4; b5] = Z.land (u32 poly) (HASH_SIZE - 1)
  ∧ hash_mac [b0; b1; b2; b3; b4; b5] = poly mod HASH_SIZE
  ∧ 0 <= hash_mac [b0; b1; b2; b3; b4; b5] < HASH_SIZE.
Proof.
  intros poly.
  assert (hash_mac [b0; b1; b2; b3; b4; b5] = u32 poly mod HASH_SIZE) as Heq.
  { unfold hash_mac. cbn [take]. rewrite land_hash_mask.
    rewrite <- u32_mod_hash_size.
    rewrite (fold_hash_step_horner _ 0 0 eq_refl). cbn [fold_left].
    rewrite Z.mul_0_l, Z.add_0_l. reflexivity. }
  split; [|split].
  - change (HASH_SIZE - 1) with HASH_MASK. rewrite land_hash_mask. exact Heq.
  - rewrite Heq. apply u32_mod_hash_size.
  - apply hash_mac_range.
Qed.

(** ** Lemmas on the probe sequence *)

Ltac unfold_consts :=
  unfold HASH_MASK, HASH_SIZE, MAX_DEVICES in *.

Lemma next_index_mod index :
  Z.land (u32 (index + 1)) HASH_MASK = (index + 1) mod HASH_SIZE.
Proof. rewrite land_hash_mask. apply u32_mod_hash_size. Qed.

Lemma slot_range home k : 0 <= slot home k < HASH_SIZE.
Proof. apply Z.mod_pos_bound. unfold_consts. lia. Qed.

Lemma slot_0 home : 0 <= home < HASH_SIZE → slot home 0 = home.
Proof. intros ?. unfold slot. rewrite Z.add_0_r. by apply Z.mod_small. Qed.

Lemma slot_S home k :
  Z.land (u32 (slot home k + 1)) HASH_MASK = slot home (S k).
Proof.
  rewrite next_index_mod. unfold slot.
  rewrite Zplus_mod_idemp_l. f_equal. lia.
Qed.

Lemma slot_back_home home k :
  0 <= home < HASH_SIZE → (0 < k)%nat →
  slot home k = home ↔ (Z.to_nat HASH_SIZE <= k)%nat ∧ slot home k = home.
Proof.
  intros Hh Hk. split; [|tauto]. intros Heq. split; [|done].
  unfold slot in Heq. unfold_consts.
  destruct (decide (Z.of_nat k < 1024)) as [Hlt|]; [|lia].
  exfalso.
  destruct (decide (home + Z.of_nat k < 1024)).
  - rewrite Z.mod_small in Heq by lia. lia.
  - replace (home + Z.of_nat k) with ((home + Z.of_nat k - 1024) + 1 * 1024)
      in Heq by lia.
    rewrite Z.mod_add in Heq by lia. rewrite Z.mod_small in Heq by lia. lia.
Qed.

Lemma slot_full_turn home :
  0 <= home < HASH_SIZE → slot home (Z.to_nat HASH_SIZE) = home.
Proof.
  intros Hh. unfold slot. rewrite Z2Nat.id by (unfold_consts; lia).
  replace (home + HASH_SIZE) with (home + 1 * HASH_SIZE) by lia.
  rewrite Z.mod_add by (unfold_consts; lia). by apply Z.mod_small.
Qed.

Lemma slot_inj home j k :
  (j < Z.to_nat HASH_SIZE)%nat → (k < Z.to_nat HASH_SIZE)%nat →
  slot home j = slot home k → j = k.
Proof.
  unfold slot. unfold_consts. intros Hj Hk Heq.
  assert (∀ a b : Z, 0 <= a < 1024 → 0 <= b < 1024 → a <= b →
            (home + a) mod 1024 = (home + b) mod 1024 → a = b) as Haux.
  { intros a b Ha Hb Hab Hm.
    assert ((b - a) mod 1024 = 0) as H0.
    { replace (b - a) with ((home + b) - (home + a)) by lia.
      rewrite Zminus_mod, Hm, Z.sub_diag. reflexivity. }
    rewrite Z.mod_small in H0 by lia. lia. }
  destruct (decide (j <= k)%nat).
  - apply Nat2Z.inj, Haux; [lia..|done].
  - symmetry. apply Nat2Z.inj, Haux; [lia..|done].
Qed.

Lemma other_device_tests mac e :
  other_device mac e →
  is_occupied e && memcmp_eq (addr (device e)) mac 6 = false
  ∧ negb (is_occupied e) = false.
Proof.
  intros [Hs Ha]. unfold is_occupied, memcmp_eq.
  rewrite (bool_decide_eq_true_2 _ Hs), (bool_decide_eq_false_2 _ Ha). done.
Qed.

Lemma passes_overb_spec g mac k :
  passes_overb g mac k = true → passes_over g mac k.
Proof.
  unfold passes_overb, passes_over. rewrite forallb_forall.
  intros Hall j Hj. specialize (Hall j).
  destruct (hash_table g !! Z.to_nat (slot (hash_mac mac) j)) as [e|].
  - exists e. split; [done|].
    assert (In j (seq 0 k)) as Hin by (apply in_seq; lia).
    apply Hall in Hin. apply andb_true_iff in Hin as [Ho Hm].
    split.
    + by apply bool_decide_eq_true_1 in Ho.
    + apply negb_true_iff in Hm. by apply bool_decide_eq_false_1 in Hm.
  - assert (In j (seq 0 k)) as Hin by (apply in_seq; lia).
    by apply Hall in Hin.
Qed.

(** One iteration of the loop over an entry that holds another device. *)
Lemma probe_step_other fuel g mac home k e :
  hash_table g !! Z.to_nat (slot home k) = Some e →
  other_device mac e →
  probe (S fuel) g mac (slot home k) home =
    if slot home (S k) =? home then Some (g, None)
    else probe fuel g mac (slot home (S k)) home.
Proof.
  intros Hl Ho. cbn [probe]. rewrite Hl. cbn [mbind option_bind].
  destruct (other_device_tests _ _ Ho) as [-> ->].
  by rewrite slot_S.
Qed.

(** The loop passes over a run of entries that hold other devices. *)
Lemma probe_skip g mac n : ∀ k fuel,
  let home := hash_mac mac in
  (k + n < Z.to_nat HASH_SIZE)%nat →
  (∀ j, (k <= j < k + n)%nat →
     ∃ e, hash_table g !! Z.to_nat (slot home j) = Some e ∧ other_device mac e) →
  probe (n + fuel) g mac (slot home k) home
  = probe fuel g mac (slot home (k + n)) home.
Proof.
  induction n as [|n IH]; intros k fuel home Hk Hrun.
  { by rewrite Nat.add_0_r. }
  destruct (Hrun k ltac:(lia)) as (e & Hl & Ho).
  cbn [Nat.add]. rewrite (probe_step_other _ _ _ _ _ _ Hl Ho).
  destruct (Z.eqb_spec (slot home (S k)) home) as [Heq|_].
  { apply slot_back_home in Heq as [? _]; [lia| apply hash_mac_range | lia]. }
  replace (k + S n)%nat with (S k + n)%nat by lia.
  apply IH; [lia|]. intros j Hj. apply Hrun. lia.
Qed.

(** Case (a): the probe reaches an occupied slot with the same address. *)
Lemma probe_hit g mac k e :
  (k < Z.to_nat HASH_SIZE)%nat →
  passes_over g mac k →
  hash_table g !! Z.to_nat (slot (hash_mac mac) k) = Some e →
  state e = ENTRY_OCCUPIED →
  take 6 (addr (device e)) = take 6 mac →
  find_or_add_device g mac = Some (g, Some (slot (hash_mac mac) k)).
Proof.
  intros Hk Hpass Hl Hs Ha. unfold find_or_add_device.
  rewrite <- (slot_0 (hash_mac mac)) at 1 by apply hash_mac_range.
  replace (Z.to_nat HASH_SIZE) with (k + S (Z.to_nat HASH_SIZE - S k))%nat
    at 1 by lia.
  rewrite probe_skip; [|lia|intros j Hj; apply Hpass; lia].
  cbn [Nat.add probe]. rewrite Hl. cbn [mbind option_bind].
  unfold is_occupied, memcmp_eq.
  by rewrite (bool_decide_eq_true_2 _ Hs), (bool_decide_eq_true_2 _ Ha).
Qed.

(** Case (b): the probe reaches a slot that is not occupied. *)
Lemma probe_free g mac k e :
  (k < Z.to_nat HASH_SIZE)%nat →
  passes_over g mac k →
  hash_table g !! Z.to_nat (slot (hash_mac mac) k) = Some e →
  state e ≠ ENTRY_OCCUPIED →
  find_or_add_device g mac =
    if MAX_DEVICES <=? n_mac (buffer_header g) then Some (g, None)
    else if MAX_DEVICES <=? hash_entries g then Some (g, None)
    else Some (insert_device g (slot (hash_mac mac) k) e mac,
               Some (slot (hash_mac mac) k)).
Proof.
  intros Hk Hpass Hl Hs. unfold find_or_add_device.
  rewrite <- (slot_0 (hash_mac mac)) at 1 by apply hash_mac_range.
  replace (Z.to_nat HASH_SIZE) with (k + S (Z.to_nat HASH_SIZE - S k))%nat
    at 1 by lia.
  rewrite probe_skip; [|lia|intros j Hj; apply Hpass; lia].
  cbn [Nat.add probe]. rewrite Hl. cbn [mbind option_bind].
  unfold is_occupied. by rewrite (bool_decide_eq_false_2 _ Hs).
Qed.

(** Case (c): every slot holds another device and the probe comes back to
    the home slot. *)
Lemma probe_wrap g mac :
  passes_over g mac (Z.to_nat HASH_SIZE) →
  find_or_add_device g mac = Some (g, None).
Proof.
  intros Hpass. unfold find_or_add_device.
  rewrite <- (slot_0 (hash_mac mac)) at 1 by apply hash_mac_range.
  replace (Z.to_nat HASH_SIZE) with (Z.to_nat HASH_SIZE - 1 + 1)%nat
    at 1 by (unfold_consts; lia).
  rewrite probe_skip;
    [|unfold_consts; lia|intros j Hj; apply Hpass; unfold_consts; lia].
  destruct (Hpass (Z.to_nat HASH_SIZE - 1)%nat) as (e & Hl & Ho);
    [unfold_consts; lia|].
  cbn [Nat.add] in *.
  rewrite (probe_step_other _ _ _ _ _ _ Hl Ho).
  replace (S (Z.to_nat HASH_SIZE - 1)) with (Z.to_nat HASH_SIZE)
    by (unfold_consts; lia).
  rewrite slot_full_turn by apply hash_mac_range.
  by rewrite Z.eqb_refl.
Qed.

(** ** [find_or_add_device]: case analysis *)

Lemma passes_over_S g mac k e :
  passes_over g mac k →
  hash_table g !! Z.to_nat (slot (hash_mac mac) k) = Some e →
  other_device mac e →
  passes_over g mac (S k).
Proof.
  intros Hp Hl Ho j Hj. destruct (decide (j = k)) as [->|].
  - by exists e.
  - apply Hp. lia.
Qed.

Lemma passes_over_le g mac j k :
  (j <= k)%nat → passes_over g mac k → passes_over g mac j.
Proof. intros Hjk Hp i Hi. apply Hp. lia. Qed.

Lemma slot_lookup g home k :
  length (hash_table g) = Z.to_nat HASH_SIZE →
  is_Some (hash_table g !! Z.to_nat (slot home k)).
Proof.
  intros Hlen. apply lookup_lt_is_Some. rewrite Hlen.
  pose proof (slot_range home k). lia.
Qed.

(** The probe stops at the first slot that does not hold another device,
    or passes over all of them. *)
Lemma probe_stops g mac n :
  length (hash_table g) = Z.to_nat HASH_SIZE →
  (n <= Z.to_nat HASH_SIZE)%nat →
  passes_over g mac n
  ∨ ∃ (k : nat) e, (k < n)%nat ∧ passes_over g mac k
      ∧ hash_table g !! Z.to_nat (slot (hash_mac mac) k) = Some e
      ∧ ¬ other_device mac e.
Proof.
  intros Hlen. induction n as [|n IH]; intros Hn.
  { left. intros j Hj. lia. }
  destruct IH as [Hp|(k & e & Hk & Hp & Hl & Ho)]; [lia| |].
  - destruct (slot_lookup g (hash_mac mac) n Hlen) as [e Hl].
    destruct (decide (other_device mac e)) as [Ho|Ho].
    + left. by eapply passes_over_S.
    + right. exists n, e. repeat split; [lia|done..].
  - right. exists k, e. repeat split; [lia|done..].
Qed.

Lemma not_other_device mac e :
  ¬ other_device mac e →
  state e ≠ ENTRY_OCCUPIED
  ∨ (state e = ENTRY_OCCUPIED ∧ take 6 (addr (device e)) = take 6 mac).
Proof.
  intros Ho. destruct (decide (state e = ENTRY_OCCUPIED)) as [Hs|]; [|by left].
  right. split; [done|].
  destruct (decide (take 6 (addr (device e)) = take 6 mac)); [done|].
  exfalso. apply Ho. by split.
Qed.

(** The three ways [find_or_add_device] ends, for a table of [HASH_SIZE]
    entries. *)
Lemma find_or_add_device_cases g mac :
  length (hash_table g) = Z.to_nat HASH_SIZE →
  (∃ (k : nat) e, (k < Z.to_nat HASH_SIZE)%nat ∧ passes_over g mac k
      ∧ hash_table g !! Z.to_nat (slot (hash_mac mac) k) = Some e
      ∧ state e = ENTRY_OCCUPIED
      ∧ take 6 (addr (device e)) = take 6 mac
      ∧ find_or_add_device g mac = Some (g, Some (slot (hash_mac mac) k)))
  ∨ (∃ (k : nat) e, (k < Z.to_nat HASH_SIZE)%nat ∧ passes_over g mac k
      ∧ hash_table g !! Z.to_nat (slot (hash_mac mac) k) = Some e
      ∧ state e ≠ ENTRY_OCCUPIED
      ∧ find_or_add_device g mac =
          if MAX_DEVICES <=? n_mac (buffer_header g) then Some (g, None)
          else if MAX_DEVICES <=? hash_entries g then Some (g, None)
          else Some (insert_device g (slot (hash_mac mac) k) e mac,
                     Some (slot (hash_mac mac) k)))
  ∨ (passes_over g mac (Z.to_nat HASH_SIZE)
      ∧ find_or_add_device g mac = Some (g, None)).
Proof.
  intros Hlen.
  destruct (probe_stops g mac (Z.to_nat HASH_SIZE) Hlen ltac:(lia))
    as [Hp|(k & e & Hk & Hp & Hl & Ho)].
  - right. right. split; [done|]. by apply probe_wrap.
  - destruct (not_other_device _ _ Ho) as [Hs|[Hs Ha]].
    + right. left. exists k, e. repeat split; try done.
      by apply probe_free.
    + left. exists k, e. repeat split; try done. by eapply probe_hit.
Qed.

Lemma find_or_add_device_total g mac :
  length (hash_table g) = Z.to_nat HASH_SIZE →
  is_Some (find_or_add_device g mac).
Proof.
  intros Hlen.
  destruct (find_or_add_device_cases g mac Hlen)
    as [(k & e & _ & _ & _ & _ & _ & ->)
       |[(k & e & _ & _ & _ & _ & ->)|[_ ->]]]; [done| |done].
  repeat case_match; done.
Qed.

Lemma probe_null_unchanged fuel : ∀ g mac index original g',
  probe fuel g mac index original = Some (g', None) → g' = g.
Proof.
  induction fuel as [|fuel IH]; intros g mac index original g'; [done|].
  cbn [probe]. destruct (hash_table g !! Z.to_nat index) as [e|]; [|done].
  cbn [mbind option_bind]. intros H.
  repeat case_match; try congruence. by eapply IH.
Qed.

(** C9. When [find_or_add_device] returns [NULL], for either reason, the
    state it leaves is the state it was called in: the table, the two
    counters and everything else are unchanged. *)
Theorem find_or_add_device_full_unchanged (g g' : globals) (mac : list Z) :
  find_or_add_device g mac = Some (g', None) →
  g' = g
  ∧ hash_table g' = hash_table g
  ∧ n_mac (buffer_header g') = n_mac (buffer_header g)
  ∧ hash_entries g' = hash_entries g.
Proof.
  unfold find_or_add_device. intros H.
  assert (g' = g) as -> by exact (probe_null_unchanged _ _ _ _ _ _ H).
  repeat split; reflexivity.
Qed.

Lemma u16_small x : 0 <= x < 65536 → u16 x = x.
Proof. intros ?. unfold u16. by apply Z.mod_small. Qed.

Lemma u8_small x : 0 <= x < 256 → u8 x = x.
Proof. intros ?. unfold u8. by apply Z.mod_small. Qed.

Lemma claimed_entry_addr e mac :
  length mac = 6%nat → length (addr (device e)) = 6%nat →
  addr (device (claimed_entry e mac)) = mac.
Proof.
  intros Hm Ha. unfold claimed_entry. cbn [device addr].
  rewrite take_ge, drop_ge by lia. apply app_nil_r.
Qed.

(** C2. [find_or_add_device] probes the slots [home, home+1, ...]
    (wrapping) from the hashed home slot.  (a) At the first slot that is
    occupied by the same identifier it returns that slot and leaves the
    state unchanged.  (b) At the first slot that is not occupied it returns
    [NULL], state unchanged, when [n_mac] or [hash_entries] has reached
    [MAX_DEVICES]; otherwise it tags the slot occupied, stores the
    identifier, clears [n_adv], increments both counters and returns the
    slot.  (c) When all [HASH_SIZE] slots hold other identifiers it returns
    [NULL], state unchanged.  For a table of [HASH_SIZE] slots one of the
    three cases always applies. *)
Theorem find_or_add_device_probe (g : globals) (mac : list Z) :
  let home := hash_mac mac in
  (∀ (k : nat) e,
     (k < Z.to_nat HASH_SIZE)%nat → passes_over g mac k →
     hash_table g !! Z.to_nat (slot home k) = Some e →
     state e = ENTRY_OCCUPIED → take 6 (addr (device e)) = take 6 mac →
     find_or_add_device g mac = Some (g, Some (slot home k)))
  ∧ (∀ (k : nat) e,
     (k < Z.to_nat HASH_SIZE)%nat → passes_over g mac k →
     hash_table g !! Z.to_nat (slot home k) = Some e →
     state e ≠ ENTRY_OCCUPIED →
     MAX_DEVICES <= n_mac (buffer_header g) ∨ MAX_DEVICES <= hash_entries g →
     find_or_add_device g mac = Some (g, None))
  ∧ (∀ (k : nat) e,
     (k < Z.to_nat HASH_SIZE)%nat → passes_over g mac k →
     hash_table g !! Z.to_nat (slot home k) = Some e →
     state e ≠ ENTRY_OCCUPIED →
     0 <= n_mac (buffer_header g) < MAX_DEVICES →
     0 <= hash_entries g < MAX_DEVICES →
     find_or_add_device g mac =
       Some (mk_globals
               (<[Z.to_nat (slot home k) := claimed_entry e mac]> (hash_table g))
               (mk_buffer_header (header (buffer_header g))
                  (sequence (buffer_header g)) (n_adv_raw (buffer_header g))
                  (n_mac (buffer_header g) + 1))
               (buffer_active g) (msg_sequence g) (hash_entries g + 1),
             Some (slot home k)))
  ∧ (passes_over g mac (Z.to_nat HASH_SIZE) →
     find_or_add_device g mac = Some (g, None))
  ∧ (length (hash_table g) = Z.to_nat HASH_SIZE →
     passes_over g mac (Z.to_nat HASH_SIZE)
     ∨ ∃ (k : nat) e, (k < Z.to_nat HASH_SIZE)%nat ∧ passes_over g mac k
         ∧ hash_table g !! Z.to_nat (slot home k) = Some e
         ∧ (state e ≠ ENTRY_OCCUPIED
            ∨ state e = ENTRY_OCCUPIED
              ∧ take 6 (addr (device e)) = take 6 mac)).
Proof.
  intros home. repeat split.
  - intros k e Hk Hp Hl Hs Ha. by eapply probe_hit.
  - intros k e Hk Hp Hl Hs Hfull.
    rewrite (probe_free g mac k e Hk Hp Hl Hs).
    destruct (Z.leb_spec MAX_DEVICES (n_mac (buffer_header g))); [done|].
    destruct (Z.leb_spec MAX_DEVICES (hash_entries g)); [done|]. lia.
  - intros k e Hk Hp Hl Hs Hn Hh.
    rewrite (probe_free g mac k e Hk Hp Hl Hs).
    destruct (Z.leb_spec MAX_DEVICES (n_mac (buffer_header g))); [lia|].
    destruct (Z.leb_spec MAX_DEVICES (hash_entries g)); [lia|].
    unfold insert_device, claim_slot, claimed_entry, memcpy.
    rewrite !u16_small by (unfold_consts; lia). reflexivity.
  - apply probe_wrap.
  - intros Hlen.
    destruct (probe_stops g mac (Z.to_nat HASH_SIZE) Hlen ltac:(lia))
      as [Hp|(k & e & Hk & Hp & Hl & Ho)]; [by left|].
    right. exists k, e. repeat split; try done. by apply not_other_device.
Qed.

(** ** Lists updated in place *)

Lemma filter_insert_length {A} (f : A → bool) (l : list A) : ∀ (i : nat) x y,
  l !! i = Some y →
  (length (List.filter f (<[i:=x]> l)) + Nat.b2n (f y)
   = length (List.filter f l) + Nat.b2n (f x))%nat.
Proof.
  induction l as [|a l IH]; intros i x y Hl; [done|].
  destruct i as [|i]; cbn in Hl |- *.
  - injection Hl as ->. destruct (f x), (f y); cbn; lia.
  - specialize (IH i x y Hl). destruct (f a); cbn; [f_equal|]; exact IH.
Qed.

Lemma filter_length_le {A} (f : A → bool) (l : list A) :
  (length (List.filter f l) <= length l)%nat.
Proof. induction l as [|a l IH]; cbn; [lia|]. destruct (f a); cbn; lia. Qed.

(** A list with an element that fails [f] has fewer passing elements than
    its length. *)
Lemma filter_length_lt {A} (f : A → bool) (l : list A) (i : nat) y :
  l !! i = Some y → f y = false →
  (length (List.filter f l) < length l)%nat.
Proof.
  revert i. induction l as [|a l IH]; intros i Hl Hf; [done|].
  destruct i as [|i]; cbn in Hl |- *.
  - injection Hl as ->. rewrite Hf. pose proof (filter_length_le f l). lia.
  - specialize (IH i Hl Hf). destruct (f a); cbn; lia.
Qed.

Lemma take_all {A} (l : list A) (n : nat) : length l = n → take n l = l.
Proof. intros <-. apply firstn_all. Qed.

(** ** Well-formed entries *)

Lemma is_occupied_true e : is_occupied e = true ↔ state e = ENTRY_OCCUPIED.
Proof. unfold is_occupied. apply bool_decide_eq_true. Qed.

Lemma is_occupied_false e : is_occupied e = false ↔ state e ≠ ENTRY_OCCUPIED.
Proof. unfold is_occupied. apply bool_decide_eq_false. Qed.

Lemma wf_zero_entry : wf_entry zero_entry.
Proof.
  split; [done|]. split.
  - unfold wf_device, zero_entry, zero_device, device, addr, data.
    repeat split; try (unfold is_u8; cbn; lia); try done;
      apply Forall_replicate; unfold is_u8; lia.
  - intros j _ Hj. unfold zero_entry, zero_device, device, data.
    apply lookup_replicate_2. lia.
Qed.

Lemma u8_range x : is_u8 (u8 x).
Proof. unfold is_u8, u8. apply Z.mod_pos_bound. lia. Qed.

Lemma min_len_range (l : list Z) :
  0 <= Z.min (Z.of_nat (length l)) 31 <= 31.
Proof. lia. Qed.

(** The record written by [scan_cb]: the address is kept, the other fields
    come from the report, the payload is cut at 31 bytes and padded with
    zeros, the counter is incremented modulo 256. *)
Lemma update_device_recorded d r :
  length (data d) = 31%nat →
  update_device d r = recorded (addr d) r (u8 (n_adv d + 1)).
Proof.
  intros Hd. unfold update_device, recorded, memset, memcpy.
  pose proof (min_len_range (rep_data r)) as Hm.
  rewrite (u8_small (Z.min _ _)) by lia.
  f_equal.
  rewrite (drop_ge (data d)) by lia. rewrite app_nil_r.
  set (n := Z.to_nat (Z.min (Z.of_nat (length (rep_data r))) 31)).
  f_equal. rewrite drop_replicate. reflexivity.
Qed.

Lemma wf_recorded mac r n :
  length mac = 6%nat → Forall is_u8 mac → wf_report r → is_u8 n →
  wf_entry (mk_hash_entry ENTRY_OCCUPIED (recorded mac r n)).
Proof.
  intros Hlen Hmac (_ & _ & Hty & Hrssi & Hadv & Hdata & _) Hn.
  pose proof (min_len_range (rep_data r)) as Hm.
  set (len := Z.min (Z.of_nat (length (rep_data r))) 31) in *.
  assert (length (take (Z.to_nat len) (rep_data r)) = Z.to_nat len) as Htake.
  { rewrite length_take. unfold len. lia. }
  split; [done|]. split.
  - unfold wf_device, recorded. cbn. fold len.
    repeat split; try done; try (unfold is_u8 in *; lia).
    + rewrite length_app, Htake, length_replicate. lia.
    + apply Forall_app. split.
      * by apply Forall_take.
      * apply Forall_replicate. unfold is_u8. lia.
  - intros j Hj Hj31. unfold recorded in *. cbn in *. fold len in Hj |- *.
    rewrite lookup_app_r by lia. apply lookup_replicate_2. lia.
Qed.

Lemma claim_slot_device e mac :
  length mac = 6%nat → length (addr (device e)) = 6%nat →
  claim_slot e mac =
    mk_hash_entry ENTRY_OCCUPIED
      (mk_device_data mac (addr_type (device e)) (adv_type (device e))
         (rssi (device e)) (data_len (device e)) (data (device e)) 0).
Proof.
  intros Hm Ha. unfold claim_slot, memcpy.
  rewrite (take_all mac 6 Hm), drop_ge by lia. by rewrite app_nil_r.
Qed.

(** ** The probe-chain invariant *)

Lemma passes_over_ext g g' mac k :
  hash_table g' = hash_table g → passes_over g mac k → passes_over g' mac k.
Proof. unfold passes_over. by intros ->. Qed.

Lemma holds_not_other mac e : holds mac e → ¬ other_device mac e.
Proof. by intros [_ <-] [_ H]. Qed.

Lemma free_not_other mac e : state e ≠ ENTRY_OCCUPIED → ¬ other_device mac e.
Proof. by intros H [? _]. Qed.

(** The probe of [mac] has one stopping point. *)
Lemma first_stop_unique g mac k k' e e' :
  passes_over g mac k → passes_over g mac k' →
  hash_table g !! Z.to_nat (slot (hash_mac mac) k) = Some e →
  ¬ other_device mac e →
  hash_table g !! Z.to_nat (slot (hash_mac mac) k') = Some e' →
  ¬ other_device mac e' →
  k = k'.
Proof.
  intros Hp Hp' Hl Ho Hl' Ho'.
  destruct (lt_eq_lt_dec k k') as [[Hlt|]|Hlt]; [|done|]; exfalso.
  - destruct (Hp' k Hlt) as (x & Hx & Hox). congruence.
  - destruct (Hp k' Hlt) as (x & Hx & Hox). congruence.
Qed.

Lemma slot_index_inj home j k :
  (j < Z.to_nat HASH_SIZE)%nat → (k < Z.to_nat HASH_SIZE)%nat →
  Z.to_nat (slot home j) = Z.to_nat (slot home k) → j = k.
Proof.
  intros Hj Hk Heq. apply (slot_inj home); [done..|].
  pose proof (slot_range home j). pose proof (slot_range home k). lia.
Qed.

(** Writing an occupied entry for [mac] at the stopping point of the probe
    of [mac] keeps every chain intact. *)
Lemma chained_insert g g' mac (k0 : nat) e0 e' :
  chained g →
  (k0 < Z.to_nat HASH_SIZE)%nat →
  passes_over g mac k0 →
  hash_table g !! Z.to_nat (slot (hash_mac mac) k0) = Some e0 →
  (state e0 = ENTRY_OCCUPIED → addr (device e0) = mac) →
  state e' = ENTRY_OCCUPIED → addr (device e') = mac →
  hash_table g' = <[Z.to_nat (slot (hash_mac mac) k0) := e']> (hash_table g) →
  chained g'.
Proof.
  intros Hch Hk0 Hp0 Hl0 He0 Hs' Ha' Ht i e Hl Hs.
  pose proof (lookup_lt_Some _ _ _ Hl0) as Hi0.
  set (i0 := Z.to_nat (slot (hash_mac mac) k0)) in *.
  rewrite Ht in Hl.
  destruct (decide (i = i0)) as [->|Hne].
  - rewrite list_lookup_insert_eq in Hl by done. injection Hl as <-.
    rewrite Ha'. exists k0. split; [done|]. split; [done|].
    intros j Hj. destruct (Hp0 j Hj) as (ej & Hlj & Hoj).
    exists ej. split; [|done]. rewrite Ht, list_lookup_insert_ne; [done|].
    fold i0. unfold i0. intros Heq. apply slot_index_inj in Heq; lia.
  - rewrite list_lookup_insert_ne in Hl by done.
    destruct (Hch i e Hl Hs) as (k & Hk & Hi & Hp).
    exists k. split; [done|]. split; [done|].
    intros j Hj. destruct (Hp j Hj) as (ej & Hlj & Hoj).
    destruct (decide (Z.to_nat (slot (hash_mac (addr (device e))) j) = i0))
      as [Heq|Hneq].
    + exists e'. rewrite Ht, Heq. split.
      { by apply list_lookup_insert_eq. }
      rewrite Heq in Hlj. assert (ej = e0) as -> by congruence.
      destruct Hoj as [Hsj Haj]. split; [done|].
      by rewrite Ha', <- (He0 Hsj).
    + exists ej. split; [|done]. rewrite Ht. by rewrite list_lookup_insert_ne.
Qed.

(** In a chained table an occupied entry is where the probe of its address
    stops. *)
Lemma chained_holds g mac (i : nat) e :
  chained g → hash_table g !! i = Some e → holds mac e →
  ∃ k : nat, (k < Z.to_nat HASH_SIZE)%nat
    ∧ Z.to_nat (slot (hash_mac mac) k) = i ∧ passes_over g mac k.
Proof.
  intros Hch Hl [Hs Ha]. destruct (Hch i e Hl Hs) as (k & ? & ? & ?).
  rewrite Ha in *. by exists k.
Qed.

(** At most one slot holds the record of an identifier. *)
Lemma holds_unique g mac (i j : nat) e e' :
  chained g →
  hash_table g !! i = Some e → holds mac e →
  hash_table g !! j = Some e' → holds mac e' →
  i = j.
Proof.
  intros Hch Hl Hh Hl' Hh'.
  destruct (chained_holds _ _ _ _ Hch Hl Hh) as (k & _ & <- & Hp).
  destruct (chained_holds _ _ _ _ Hch Hl' Hh') as (k' & _ & <- & Hp').
  f_equal. f_equal.
  eapply (first_stop_unique g mac k k'); eauto using holds_not_other.
Qed.

(** ** The effect of [scan_cb] *)

Lemma inv_entry g (i : nat) e :
  inv g → hash_table g !! i = Some e → wf_entry e.
Proof.
  intros (_ & Hwf & _) Hl. rewrite Forall_lookup in Hwf. by eapply Hwf.
Qed.

Lemma inv_free_slot g (i : nat) e :
  inv g → hash_table g !! i = Some e → state e ≠ ENTRY_OCCUPIED →
  0 <= n_mac (buffer_header g) < MAX_DEVICES
  ∧ 0 <= hash_entries g < MAX_DEVICES.
Proof.
  intros (Hlen & _ & _ & _ & _ & _ & Hn & Hh & _) Hl Hs.
  apply is_occupied_false in Hs.
  pose proof (filter_length_lt is_occupied _ _ _ Hl Hs) as Hlt.
  rewrite Hlen in Hlt. fold (occupied_count g) in Hlt.
  rewrite Hn, Hh. unfold_consts. lia.
Qed.

(** In a state that satisfies the invariant [scan_cb] either drops the
    report, counting it, or records it at the slot where the probe stops:
    in the record of the same identifier, or in a free slot. *)
Lemma scan_cb_effect g r :
  inv g → wf_report r →
  let mac := rep_addr r in
  let g1 := set_n_adv_raw g (u16 (n_adv_raw (buffer_header g) + 1)) in
  (find_or_add_device g1 mac = Some (g1, None)
   ∧ passes_over g mac (Z.to_nat HASH_SIZE)
   ∧ scan_cb g r = Some g1)
  ∨ ∃ (k : nat) e n g2,
      (k < Z.to_nat HASH_SIZE)%nat
      ∧ passes_over g mac k
      ∧ hash_table g !! Z.to_nat (slot (hash_mac mac) k) = Some e
      ∧ (holds mac e ∧ n = n_adv (device e)
         ∨ state e ≠ ENTRY_OCCUPIED ∧ n = 0)
      ∧ find_or_add_device g1 mac = Some (g2, Some (slot (hash_mac mac) k))
      ∧ scan_cb g r
        = Some (recorded_state g r (Z.to_nat (slot (hash_mac mac) k)) e n).
Proof.
  intros Hinv Hr mac g1.
  pose proof Hinv as (Hlen & Hwf & Hch & Hhdr & Hseq & Hraw & Hnmac & Hhe
                      & Hmsg & Hact).
  destruct Hr as (Hmlen & Hmac & Hrest). fold mac in Hmlen, Hmac.
  assert (length (hash_table g1) = Z.to_nat HASH_SIZE) as Hlen1 by done.
  unfold scan_cb. rewrite Hact. cbn [negb]. fold g1. fold mac.
  destruct (find_or_add_device_cases g1 mac Hlen1)
    as [(k & e & Hk & Hp & Hl & Hs & Ha & Hfind)
       |[(k & e & Hk & Hp & Hl & Hs & Hfind)|[Hp Hfind]]].
  - (* the record exists *)
    change (hash_table g1) with (hash_table g) in Hl.
    pose proof (inv_entry _ _ _ Hinv Hl) as (_ & Hwd & _).
    destruct Hwd as (Halen & _ & _ & _ & _ & _ & Hdlen & _).
    rewrite !take_all in Ha by done.
    right. exists k, e, (n_adv (device e)), g1.
    split; [done|]. split; [by eapply passes_over_ext|]. split; [done|].
    split; [by left|]. split; [done|].
    rewrite Hfind. cbn [mbind option_bind fst snd].
    change (hash_table g1) with (hash_table g). rewrite Hl.
    cbn [mbind option_bind]. f_equal.
    rewrite update_device_recorded by done. rewrite Ha, Hs.
    unfold recorded_state, set_hash_table, g1, set_n_adv_raw.
    cbn [hash_table buffer_header buffer_active msg_sequence hash_entries
         header sequence n_adv_raw n_mac].
    rewrite (proj2 (is_occupied_true e) Hs), !Z.add_0_r.
    reflexivity.
  - (* a free slot *)
    change (hash_table g1) with (hash_table g) in Hl.
    pose proof (inv_entry _ _ _ Hinv Hl) as (_ & Hwd & _).
    destruct Hwd as (Halen & _ & _ & _ & _ & _ & Hdlen & _).
    destruct (inv_free_slot _ _ _ Hinv Hl Hs) as [Hn Hh].
    change (n_mac (buffer_header g1)) with (n_mac (buffer_header g)) in Hfind.
    change (hash_entries g1) with (hash_entries g) in Hfind.
    destruct (Z.leb_spec MAX_DEVICES (n_mac (buffer_header g))); [lia|].
    destruct (Z.leb_spec MAX_DEVICES (hash_entries g)); [lia|].
    right. exists k, e, 0. eexists.
    split; [done|]. split; [by eapply passes_over_ext|]. split; [done|].
    split; [by right|]. split; [exact Hfind|].
    rewrite Hfind. cbn [mbind option_bind fst snd].
    pose proof (lookup_lt_Some _ _ _ Hl) as Hi.
    unfold insert_device.
    cbn [hash_table]. change (hash_table g1) with (hash_table g).
    rewrite list_lookup_insert_eq by done.
    cbn [mbind option_bind]. f_equal.
    rewrite claim_slot_device by done.
    rewrite update_device_recorded by done.
    unfold recorded_state, set_hash_table, g1, set_n_adv_raw.
    cbn [hash_table buffer_header buffer_active msg_sequence hash_entries
         header sequence n_adv_raw n_mac state device addr n_adv].
    rewrite list_insert_insert_eq.
    rewrite (proj2 (is_occupied_false e) Hs).
    rewrite (u16_small (n_mac (buffer_header g) + 1)),
      (u16_small (hash_entries g + 1)) by (unfold_consts; lia).
    reflexivity.
  - (* every slot holds another device *)
    left. split; [done|]. split; [by eapply passes_over_ext|].
    by rewrite Hfind.
Qed.

Lemma inv_set_n_adv_raw g v :
  inv g → 0 <= v < 65536 → inv (set_n_adv_raw g v).
Proof.
  intros (Hlen & Hwf & Hch & Hhdr & Hseq & Hraw & Hnmac & Hhe & Hmsg & Hact)
    Hv.
  unfold inv, set_n_adv_raw.
  cbn [hash_table buffer_header buffer_active msg_sequence hash_entries
       header sequence n_adv_raw n_mac].
  split_and!; try done; lia.
Qed.

Lemma u16_range x : 0 <= u16 x < 65536.
Proof. unfold u16. apply Z.mod_pos_bound. lia. Qed.

Lemma inv_recorded_state g r (k : nat) e n :
  inv g → wf_report r →
  (k < Z.to_nat HASH_SIZE)%nat →
  passes_over g (rep_addr r) k →
  hash_table g !! Z.to_nat (slot (hash_mac (rep_addr r)) k) = Some e →
  (holds (rep_addr r) e ∨ state e ≠ ENTRY_OCCUPIED) →
  inv (recorded_state g r (Z.to_nat (slot (hash_mac (rep_addr r)) k)) e n).
Proof.
  intros Hinv Hr Hk Hp Hl He.
  pose proof Hinv as (Hlen & Hwf & Hch & Hhdr & Hseq & Hraw & Hnmac & Hhe
                      & Hmsg & Hact).
  pose proof Hr as (Hmlen & Hmac & _).
  set (i := Z.to_nat (slot (hash_mac (rep_addr r)) k)) in *.
  set (e' := mk_hash_entry ENTRY_OCCUPIED (recorded (rep_addr r) r (u8 (n + 1)))).
  assert (length (List.filter is_occupied (<[i:=e']> (hash_table g)))
            + Nat.b2n (is_occupied e)
          = length (List.filter is_occupied (hash_table g)) + 1)%nat as Hcount
    by exact (filter_insert_length is_occupied _ _ e' e Hl).
  unfold inv, recorded_state.
  cbn [hash_table buffer_header buffer_active msg_sequence hash_entries
       header sequence n_adv_raw n_mac].
  fold e'.
  split; [by rewrite length_insert|].
  split; [apply Forall_insert; [done|]; apply wf_recorded; auto using u8_range|].
  split.
  { eapply (chained_insert g _ (rep_addr r) k e e'); try done.
    intros Hs. destruct He as [[_ Ha]|Hn]; done. }
  split; [done|]. split; [done|]. split; [apply u16_range|].
  unfold occupied_count in *. cbn [hash_table].
  destruct (is_occupied e); cbn [Nat.b2n] in Hcount;
    (split; [lia|]); (split; [lia|]); done.
Qed.

(** [scan_cb] returns, and keeps the invariant. *)
Lemma scan_cb_inv g r :
  inv g → wf_report r → ∃ g', scan_cb g r = Some g' ∧ inv g'.
Proof.
  intros Hinv Hr.
  destruct (scan_cb_effect g r Hinv Hr)
    as [(_ & _ & ->)|(k & e & n & g2 & Hk & Hp & Hl & He & _ & ->)].
  - eexists. split; [done|]. apply inv_set_n_adv_raw; [done|apply u16_range].
  - eexists. split; [done|]. apply inv_recorded_state; try done.
    destruct He as [[? _]|[? _]]; [by left|by right].
Qed.

(** ** The invariant holds in every reachable state *)

Lemma filter_replicate_false {A} (f : A → bool) (x : A) (n : nat) :
  f x = false → List.filter f (replicate n x) = [].
Proof. intros Hf. induction n as [|n IH]; cbn; [done|]. by rewrite Hf. Qed.

Lemma inv_after_reset g :
  is_u8 (msg_sequence g) → inv (set_buffer_active (reset_buffer g) true).
Proof.
  intros Hm. unfold inv, occupied_count, set_buffer_active, reset_buffer.
  cbn [hash_table buffer_header buffer_active msg_sequence hash_entries
       header sequence n_adv_raw n_mac].
  rewrite (filter_replicate_false is_occupied zero_entry) by done.
  split_and!; try done.
  - apply Forall_replicate, wf_zero_entry.
  - intros i e Hl Hs. cbn [hash_table] in Hl.
    apply lookup_replicate_1 in Hl as [-> _]. done.
Qed.

Lemma inv_main_init : inv main_init.
Proof. apply inv_after_reset. unfold is_u8. cbn. lia. Qed.

Lemma inv_after_timer bo g : inv g → inv (sampling_timer_handler bo g).2.
Proof.
  intros (_ & _ & _ & _ & _ & _ & _ & _ & Hmsg & _).
  unfold sampling_timer_handler. cbn [snd].
  apply inv_after_reset. cbn [set_buffer_active msg_sequence].
  rewrite Hmsg. apply u8_range.
Qed.

Lemma reachable_inv g : reachable g → inv g.
Proof.
  induction 1 as [|g r g' _ IH Hr Hscan|bo g _ IH].
  - apply inv_main_init.
  - destruct (scan_cb_inv g r IH Hr) as (g'' & Hscan' & Hinv). congruence.
  - by apply inv_after_timer.
Qed.

Lemma scan_all_inv rs : ∀ g,
  inv g → Forall wf_report rs → ∃ g', scan_all g rs = Some g' ∧ inv g'.
Proof.
  induction rs as [|r rs IH]; intros g Hinv Hrs.
  { by exists g. }
  apply Forall_cons_1 in Hrs as [Hr Hrs].
  destruct (scan_cb_inv g r Hinv Hr) as (g1 & Hscan & Hinv1).
  destruct (IH g1 Hinv1 Hrs) as (g' & Hall & Hinv').
  exists g'. split; [|done]. cbn [scan_all]. by rewrite Hscan.
Qed.

Lemma reachable_scan_all rs : ∀ g g',
  reachable g → Forall wf_report rs → scan_all g rs = Some g' → reachable g'.
Proof.
  induction rs as [|r rs IH]; intros g g' Hg Hrs Hall.
  { cbn in Hall. congruence. }
  apply Forall_cons_1 in Hrs as [Hr Hrs]. cbn [scan_all] in Hall.
  destruct (scan_cb g r) as [g1|] eqn:Hscan; [|done].
  cbn [mbind option_bind] in Hall.
  eapply IH; [|done..]. by eapply reach_scan.
Qed.

Lemma reachable_default_scan_all g rs :
  reachable g → Forall wf_report rs → reachable (default g (scan_all g rs)).
Proof.
  intros Hg Hrs.
  destruct (scan_all_inv rs g (reachable_inv g Hg) Hrs) as (g' & Hall & _).
  rewrite Hall. cbn. by eapply reachable_scan_all.
Qed.

Lemma window_start_reachable g : window_start g → reachable g.
Proof. destruct 1; by constructor. Qed.

Lemma window_start_empty g :
  window_start g →
  hash_table g = replicate (Z.to_nat HASH_SIZE) zero_entry
  ∧ n_adv_raw (buffer_header g) = 0.
Proof. by destruct 1. Qed.

(** ** The scan callback *)

Lemma well_sized_main_init : well_sized main_init.
Proof.
  split; [reflexivity|]. apply Forall_replicate. by split.
Qed.

Lemma inv_well_sized g : inv g → well_sized g.
Proof.
  intros (Hlen & Hwf & _). split; [done|].
  apply Forall_lookup_2. intros i e Hl. rewrite Forall_lookup in Hwf.
  destruct (Hwf i e Hl) as (_ & (Ha & _ & _ & _ & _ & _ & Hd & _) & _).
  by split.
Qed.

(** C3. If the window is not active the report is discarded and nothing
    changes.  Otherwise [n_adv_raw] is incremented (as a 16-bit counter)
    whatever happens next; if [find_or_add_device] returns [NULL] nothing
    else changes; if it returns a record, that record is occupied and after
    [scan_cb] the slot holds it with [addr_type], [adv_type] and [rssi]
    overwritten from the report, [data_len] equal to [min (buf->len, 31)],
    [data] equal to the first [data_len] bytes of the payload followed by
    zeros up to 31 bytes, and [n_adv] incremented (as an 8-bit counter); the
    address and the tag of the record are kept, and every other slot and
    every other variable is as [find_or_add_device] left it. *)
Theorem scan_cb_spec (g : globals) (r : adv_report) :
  well_sized g →
  if buffer_active g then
    let h := buffer_header g in
    let counted :=
      mk_globals (hash_table g)
        (mk_buffer_header (header h) (sequence h) (u16 (n_adv_raw h + 1))
           (n_mac h))
        (buffer_active g) (msg_sequence g) (hash_entries g) in
    ∃ g2 res g',
      find_or_add_device counted (rep_addr r) = Some (g2, res)
      ∧ scan_cb g r = Some g'
      ∧ n_adv_raw (buffer_header g')
        = u16 (n_adv_raw (buffer_header g) + 1)
      ∧ match res with
        | None =>
          g' = counted
          ∧ hash_table g' = hash_table g
          ∧ n_mac (buffer_header g') = n_mac (buffer_header g)
          ∧ hash_entries g' = hash_entries g
        | Some index =>
          ∃ e,
            hash_table g2 !! Z.to_nat index = Some e
            ∧ state e = ENTRY_OCCUPIED
            ∧ let len := Z.min (Z.of_nat (length (rep_data r))) 31 in
              let d' :=
                mk_device_data (addr (device e))
                  (rep_addr_type r) (rep_adv_type r) (rep_rssi r)
                  len
                  (take (Z.to_nat len) (rep_data r)
                     ++ replicate (31 - Z.to_nat len) 0)
                  (u8 (n_adv (device e) + 1)) in
              hash_table g' !! Z.to_nat index
              = Some (mk_hash_entry ENTRY_OCCUPIED d')
              ∧ length (hash_table g') = length (hash_table g2)
              ∧ (∀ j : nat, j ≠ Z.to_nat index →
                   hash_table g' !! j = hash_table g2 !! j)
              ∧ buffer_header g' = buffer_header g2
              ∧ buffer_active g' = buffer_active g2
              ∧ msg_sequence g' = msg_sequence g2
              ∧ hash_entries g' = hash_entries g2
        end
  else scan_cb g r = Some g.
Proof.
  intros [Hlen Hsz].
  destruct (buffer_active g) eqn:Hact; [|unfold scan_cb; by rewrite Hact].
  cbv zeta.
  assert (mk_globals (hash_table g)
            (mk_buffer_header (header (buffer_header g))
               (sequence (buffer_header g))
               (u16 (n_adv_raw (buffer_header g) + 1))
               (n_mac (buffer_header g)))
            true (msg_sequence g) (hash_entries g)
          = set_n_adv_raw g (u16 (n_adv_raw (buffer_header g) + 1))) as ->.
  { unfold set_n_adv_raw. by rewrite Hact. }
  unfold scan_cb. rewrite Hact. cbn [negb].
  set (g1 := set_n_adv_raw g (u16 (n_adv_raw (buffer_header g) + 1))).
  assert (length (hash_table g1) = Z.to_nat HASH_SIZE) as Hlen1 by done.
  assert (∀ (i : nat) e, hash_table g !! i = Some e →
            length (addr (device e)) = 6%nat
            ∧ length (data (device e)) = 31%nat) as Hsz'.
  { intros i e Hl. rewrite Forall_lookup in Hsz. by eapply Hsz. }
  assert (∀ (t : list hash_entry) (i : nat) e d' g0,
            t !! i = Some e → state e = ENTRY_OCCUPIED →
            length (data (device e)) = 31%nat →
            d' = recorded (addr (device e)) r (u8 (n_adv (device e) + 1)) →
            hash_table g0 = t →
            let g' := set_hash_table g0
                        (<[i := mk_hash_entry (state e)
                                  (update_device (device e) r)]> t) in
            hash_table g' !! i = Some (mk_hash_entry ENTRY_OCCUPIED d')
            ∧ length (hash_table g') = length (hash_table g0)
            ∧ (∀ j : nat, j ≠ i → hash_table g' !! j = hash_table g0 !! j)
            ∧ buffer_header g' = buffer_header g0
            ∧ buffer_active g' = buffer_active g0
            ∧ msg_sequence g' = msg_sequence g0
            ∧ hash_entries g' = hash_entries g0) as Hwrite.
  { intros t i e d' g0 Hl Hs Hd -> Ht g'. subst g'.
    unfold set_hash_table.
    cbn [hash_table buffer_header buffer_active msg_sequence hash_entries].
    rewrite Ht, update_device_recorded, Hs by done.
    split; [apply list_lookup_insert_eq; by eapply lookup_lt_Some|].
    split; [apply length_insert|].
    split; [|done].
    intros j Hj. by apply list_lookup_insert_ne. }
  destruct (find_or_add_device_cases g1 (rep_addr r) Hlen1)
    as [(k & e & Hk & Hp & Hl & Hs & Ha & Hfind)
       |[(k & e & Hk & Hp & Hl & Hs & Hfind)|[Hp Hfind]]].
  - exists g1, (Some (slot (hash_mac (rep_addr r)) k)).
    rewrite Hfind. cbn [mbind option_bind fst snd]. rewrite Hl.
    cbn [mbind option_bind]. eexists. split; [done|]. split; [done|].
    split; [done|].
    exists e. split; [done|]. split; [done|].
    destruct (Hsz' _ _ Hl) as [_ Hd].
    exact (Hwrite _ _ e _ g1 Hl Hs Hd eq_refl eq_refl).
  - rewrite Hfind.
    destruct (MAX_DEVICES <=? n_mac (buffer_header g1));
      [|destruct (MAX_DEVICES <=? hash_entries g1)].
    + exists g1, None, g1. by cbn.
    + exists g1, None, g1. by cbn.
    + pose proof (lookup_lt_Some _ _ _ Hl) as Hi.
      destruct (Hsz' _ _ Hl) as [_ Hd].
      set (g2 := insert_device g1 (slot (hash_mac (rep_addr r)) k) e
                   (rep_addr r)).
      assert (hash_table g2 !! Z.to_nat (slot (hash_mac (rep_addr r)) k)
              = Some (claim_slot e (rep_addr r))) as Hl2.
      { unfold g2, insert_device. cbn [hash_table].
        by rewrite list_lookup_insert_eq. }
      exists g2, (Some (slot (hash_mac (rep_addr r)) k)).
      cbn [mbind option_bind fst snd]. rewrite Hl2.
      cbn [mbind option_bind]. eexists. split; [done|]. split; [done|].
      split; [done|].
      exists (claim_slot e (rep_addr r)). split; [done|]. split; [done|].
      exact (Hwrite _ _ (claim_slot e (rep_addr r)) _ g2 Hl2 eq_refl Hd
               eq_refl eq_refl).
  - exists g1, None, g1. rewrite Hfind. by cbn.
Qed.

(** In the first window of the program the report of
    [01:02:03:04:05:06] is recorded in slot 117, which was empty; before
    [main] has activated the buffer it is discarded. *)
Lemma scan_cb_spec_witness :
  (∃ g',
     scan_cb main_init extra_report = Some g'
     ∧ n_adv_raw (buffer_header g') = 1
     ∧ hash_table g' !! 117%nat
       = Some (mk_hash_entry ENTRY_OCCUPIED
                 (mk_device_data [1; 2; 3; 4; 5; 6] 0 3 (-70) 2
                    ([7; 7] ++ replicate 29 0) 1))
     ∧ length (hash_table g') = 1024%nat
     ∧ (∀ j : nat, j ≠ 117%nat →
          hash_table g' !! j = hash_table main_init !! j)
     ∧ header (buffer_header g') = [85; 85; 85; 85]
     ∧ sequence (buffer_header g') = 0
     ∧ n_mac (buffer_header g') = 1
     ∧ buffer_active g' = true
     ∧ msg_sequence g' = 1
     ∧ hash_entries g' = 1)
  ∧ scan_cb (reset_buffer initial_globals) extra_report
    = Some (reset_buffer initial_globals).
Proof.
  split.
  - pose proof (scan_cb_spec main_init extra_report well_sized_main_init)
      as H.
    cbv zeta in H.
    change (buffer_active main_init) with true in H. cbv iota in H.
    destruct H as (g2 & res & g' & Hfind & Hscan & Hraw & Hres).
    exists g'. split; [exact Hscan|].
    split; [exact Hraw|].
    set (g1 := set_n_adv_raw main_init 1).
    assert (Some (g2, res)
            = Some (insert_device g1 117 zero_entry [1; 2; 3; 4; 5; 6],
                    Some 117)) as Heq.
    { rewrite <- Hfind. vm_compute. reflexivity. }
    injection Heq as -> ->.
    destruct Hres as (e & Hl & _ & Hrec & Hlen & Hrest & Hh & Ha & Hm & He).
    assert (Some e = Some (claim_slot zero_entry [1; 2; 3; 4; 5; 6])) as Heq.
    { rewrite <- Hl. vm_compute. reflexivity. }
    injection Heq as ->.
    split; [exact Hrec|].
    split; [rewrite Hlen; reflexivity|].
    split.
    { intros j Hj. rewrite (Hrest j Hj). unfold insert_device.
      cbn [hash_table]. by apply list_lookup_insert_ne. }
    rewrite Hh, Ha, Hm, He. by split_and!.
  - refine (scan_cb_spec (reset_buffer initial_globals) extra_report _).
    exact well_sized_main_init.
Defined.

(** ** Zero padding of the payload *)

(** C4. In every reachable state, every entry of the table has all bytes
    of [data] at index [data_len] and above equal to zero.  Reachable
    states include those in which the slot held, earlier in the window or
    in an earlier window, a record with other bytes there. *)
Theorem payload_zero_filled (g : globals) :
  reachable g →
  ∀ (i : nat) e, hash_table g !! i = Some e →
    length (data (device e)) = 31%nat
    ∧ 0 <= data_len (device e) <= 31
    ∧ ∀ j : nat, data_len (device e) <= Z.of_nat j → (j < 31)%nat →
        data (device e) !! j = Some 0.
Proof.
  intros Hg i e Hl.
  destruct (inv_entry g i e (reachable_inv g Hg) Hl)
    as (_ & (_ & _ & _ & _ & _ & Hlen & Hd & _) & Hz).
  split; [done|]. split; [done|]. exact Hz.
Qed.

(** The slot of address [1;2;3;4;5;6] held 31 bytes [255] in the first
    window; in the second window it holds a two-byte payload. *)
Example reuse_state_before :
  data ∘ device <$>
    hash_table first_window_state !! 117%nat
  = Some (replicate 31 255).
Proof. vm_compute. reflexivity. Qed.

Example reuse_state_after :
  (λ e, (data_len (device e), data (device e))) <$>
    hash_table reuse_state !! 117%nat
  = Some (2, [9; 8] ++ replicate 29 0).
Proof. vm_compute. reflexivity. Qed.

Lemma payload_zero_filled_witness :
  ∃ e,
    hash_table reuse_state !! 117%nat = Some e
    ∧ length (data (device e)) = 31%nat
    ∧ 0 <= data_len (device e) <= 31
    ∧ ∀ j : nat, data_len (device e) <= Z.of_nat j → (j < 31)%nat →
        data (device e) !! j = Some 0.
Proof.
  exists (mk_hash_entry ENTRY_OCCUPIED (recorded (rep_addr short_report)
                                          short_report 2)).
  assert (hash_table reuse_state !! 117%nat
          = Some (mk_hash_entry ENTRY_OCCUPIED
                    (recorded (rep_addr short_report) short_report 2)))
    as Hl by (vm_compute; reflexivity).
  split; [exact Hl|].
  apply (payload_zero_filled reuse_state) with (i := 117%nat); [|exact Hl].
  unfold reuse_state.
  apply reachable_default_scan_all.
  - apply reach_timer. unfold first_window_state.
    apply reachable_default_scan_all.
    + apply reach_main.
    + repeat constructor; apply (bool_decide_unpack _); vm_compute; exact I.
  - repeat constructor; apply (bool_decide_unpack _); vm_compute; exact I.
Defined.

(** ** The frame *)

Lemma u16_bytes_decode bo v : 
  match u16_bytes bo v with
  | [b0; b1] => u16_of_bytes bo b0 b1 = v
  | _ => False
  end.
Proof.
  pose proof (Z_div_mod_eq_full v 256).
  destruct bo; cbn [u16_bytes u16_of_bytes]; lia.
Qed.

Lemma u16_bytes_range bo v :
  0 <= v < 65536 → Forall is_u8 (u16_bytes bo v).
Proof.
  intros Hv.
  assert (is_u8 (v mod 256)) by (apply Z.mod_pos_bound; lia).
  assert (is_u8 (v / 256)).
  { split; [apply Z.div_pos; lia|apply Z.div_lt_upper_bound; lia]. }
  destruct bo; cbn [u16_bytes];
    (apply Forall_cons_2; [done|apply Forall_cons_2; [done|apply Forall_nil_2]]).
Qed.

Lemma s8_of_u8 x : -128 <= x < 128 → s8_of_byte (u8 x) = x.
Proof.
  intros Hx. unfold s8_of_byte, u8. change (2 ^ 8) with 256.
  destruct (decide (0 <= x)).
  - rewrite Z.mod_small by lia. destruct (Z.ltb_spec x 128); lia.
  - assert (x mod 256 = x + 256) as ->.
    { replace x with (x + 256 + (-1) * 256) at 1 by lia.
      rewrite Z.mod_add by lia. apply Z.mod_small. lia. }
    destruct (Z.ltb_spec (x + 256) 128); lia.
Qed.

Lemma length_device_data_bytes d :
  wf_device d → length (device_data_bytes d) = sizeof_device_data.
Proof.
  intros (Ha & _ & _ & _ & _ & _ & Hd & _). unfold device_data_bytes.
  rewrite !length_app, Ha, Hd. reflexivity.
Qed.

Lemma decode_device_bytes d :
  wf_device d → decode_device (device_data_bytes d) = Some d.
Proof.
  intros Hwf. pose proof (length_device_data_bytes d Hwf) as Hlen.
  destruct Hwf as (Ha & _ & _ & _ & Hrssi & _ & Hd & _).
  unfold decode_device. rewrite bool_decide_eq_true_2 by done.
  unfold device_data_bytes.
  rewrite (drop_app_length' (addr d)) by done.
  rewrite (take_app_length' (addr d)) by done.
  cbn [app]. rewrite (take_app_length' (data d)) by done.
  rewrite app_nth2 by lia. rewrite Hd, Nat.sub_diag. cbn [nth].
  rewrite s8_of_u8 by done. by destruct d.
Qed.

Lemma send_entry_occupied e :
  wf_entry e → state e = ENTRY_OCCUPIED →
  send_entry e = device_data_bytes (device e).
Proof.
  intros (_ & Hd & _) Hs. unfold send_entry.
  rewrite (proj2 (is_occupied_true e) Hs).
  apply take_ge. rewrite length_device_data_bytes by done. done.
Qed.

Lemma flat_map_send_entry l :
  Forall wf_entry l →
  flat_map send_entry l
  = concat (device_data_bytes <$> (device <$> List.filter is_occupied l)).
Proof.
  induction 1 as [|e l He _ IH]; [done|]. cbn [flat_map List.filter].
  rewrite IH. destruct (is_occupied e) eqn:Ho.
  - rewrite send_entry_occupied by (try done; by apply is_occupied_true).
    reflexivity.
  - unfold send_entry. by rewrite Ho.
Qed.

Lemma decode_devices_concat ds :
  Forall wf_device ds →
  decode_devices (length ds) (concat (device_data_bytes <$> ds)) = Some ds.
Proof.
  induction 1 as [|d ds Hd _ IH]; [done|].
  cbn [length fmap list_fmap concat decode_devices].
  pose proof (length_device_data_bytes d Hd) as Hlen.
  rewrite (take_app_length' (device_data_bytes d)) by done.
  rewrite (drop_app_length' (device_data_bytes d)) by done.
  rewrite decode_device_bytes by done. cbn [mbind option_bind].
  change (list_fmap _ _ device_data_bytes ds) with (device_data_bytes <$> ds).
  rewrite IH. reflexivity.
Qed.

Lemma length_concat_devices ds :
  Forall wf_device ds →
  length (concat (device_data_bytes <$> ds)) = (42 * length ds)%nat.
Proof.
  induction 1 as [|d ds Hd _ IH]; [done|].
  cbn [fmap list_fmap concat length].
  change (list_fmap _ _ device_data_bytes ds) with (device_data_bytes <$> ds).
  rewrite length_app, IH, (length_device_data_bytes d Hd).
  unfold sizeof_device_data. lia.
Qed.

Lemma wf_occupied_devices g : inv g → Forall wf_device (occupied_devices g).
Proof.
  intros (_ & Hwf & _). unfold occupied_devices.
  induction Hwf as [|e l (_ & He & _) _ IH]; [apply Forall_nil_2|].
  cbn [List.filter]. destruct (is_occupied e); [|done].
  by apply Forall_cons_2.
Qed.

Lemma length_occupied_devices g :
  length (occupied_devices g) = occupied_count g.
Proof. unfold occupied_devices, occupied_count. apply length_fmap. Qed.

Lemma length_buffer_header_bytes bo g :
  inv g →
  length (buffer_header_bytes bo (buffer_header g)) = sizeof_buffer_header.
Proof.
  intros (_ & _ & _ & Hh & _). unfold buffer_header_bytes.
  rewrite Hh. by destruct bo.
Qed.

Lemma decode_header_bytes bo g :
  inv g →
  decode_header bo (buffer_header_bytes bo (buffer_header g))
  = Some (buffer_header g).
Proof.
  intros (_ & _ & _ & Hh & _). unfold buffer_header_bytes.
  destruct (buffer_header g) as [hd sq raw nm].
  cbn [header sequence n_adv_raw n_mac] in *. subst hd.
  pose proof (u16_bytes_decode bo raw) as Hraw.
  pose proof (u16_bytes_decode bo nm) as Hnm.
  destruct bo; cbn [u16_bytes] in *;
    cbn [replicate UART_HEADER_LENGTH app decode_header];
    by rewrite Hraw, Hnm.
Qed.

(** The frame is the header followed by the records of the occupied
    slots. *)
Lemma send_buffer_frame bo g :
  inv g →
  send_buffer bo g
  = buffer_header_bytes bo (buffer_header g)
    ++ concat (device_data_bytes <$> occupied_devices g).
Proof.
  intros Hinv. pose proof Hinv as (Hlen & Hwf & _). unfold send_buffer.
  rewrite take_ge by (by rewrite length_buffer_header_bytes).
  rewrite (take_ge (hash_table g)) by lia.
  by rewrite flat_map_send_entry.
Qed.

Lemma timer_frame bo g :
  (sampling_timer_handler bo g).1 = send_buffer bo g.
Proof. reflexivity. Qed.

Lemma decode_frame_send_buffer bo g :
  inv g →
  decode_frame bo (send_buffer bo g)
  = Some (buffer_header g, occupied_devices g).
Proof.
  intros Hinv. rewrite send_buffer_frame by done. unfold decode_frame.
  pose proof (length_buffer_header_bytes bo g Hinv) as Hlen.
  rewrite (take_app_length' (buffer_header_bytes _ _)) by done.
  rewrite (drop_app_length' (buffer_header_bytes _ _)) by done.
  rewrite decode_header_bytes by done. cbn [mbind option_bind].
  pose proof Hinv as (_ & _ & _ & _ & _ & _ & Hn & _).
  rewrite Hn, Nat2Z.id, <- length_occupied_devices.
  rewrite decode_devices_concat; [done|].
  by apply wf_occupied_devices.
Qed.

(** ** Occupancy *)

Lemma occupied_lookup (l : list hash_entry) e :
  In e (List.filter is_occupied l) →
  ∃ j : nat, l !! j = Some e ∧ state e = ENTRY_OCCUPIED.
Proof.
  rewrite filter_In. intros [Hin Ho].
  apply list_elem_of_In, list_elem_of_lookup in Hin as [j Hj].
  exists j. split; [done|]. by apply is_occupied_true.
Qed.

(** No two occupied slots store the same identifier. *)
Lemma NoDup_occupied_addrs (l : list hash_entry) :
  (∀ (i j : nat) e e', l !! i = Some e → l !! j = Some e' →
     state e = ENTRY_OCCUPIED → state e' = ENTRY_OCCUPIED →
     addr (device e) = addr (device e') → i = j) →
  NoDup (addr <$> (device <$> List.filter is_occupied l)).
Proof.
  induction l as [|a l IH]; intros Huniq; [apply NoDup_nil_2|].
  assert (NoDup (addr <$> (device <$> List.filter is_occupied l))) as Hnd.
  { apply IH. intros i j e e' Hi Hj Hs Hs' Ha.
    assert (S i = S j) by (by eapply (Huniq (S i) (S j))). lia. }
  cbn [List.filter]. destruct (is_occupied a) eqn:Ho; [|done].
  cbn [fmap list_fmap]. apply NoDup_cons_2; [|exact Hnd].
  intros Hin.
  apply list_elem_of_fmap in Hin as (d & Hd & Hin).
  apply list_elem_of_fmap in Hin as (e & -> & Hin).
  apply list_elem_of_In, occupied_lookup in Hin as (j & Hj & Hs).
  apply is_occupied_true in Ho.
  assert (0%nat = S j) by (by eapply (Huniq 0%nat (S j) a e)). lia.
Qed.

(** C5. In every reachable state, whatever reports have arrived, the
    occupied slots store pairwise distinct identifiers, their number is at
    most [MAX_DEVICES], and it is the value of [n_mac]: the unique count
    that a receiver reads in the header of the frame written at the next
    timer expiry is the number of occupied slots. *)
Theorem unique_count_is_occupancy (g : globals) :
  reachable g →
  NoDup (addr <$> occupied_devices g)
  ∧ length (addr <$> occupied_devices g) = occupied_count g
  ∧ (occupied_count g <= Z.to_nat MAX_DEVICES)%nat
  ∧ n_mac (buffer_header g) = Z.of_nat (occupied_count g)
  ∧ ∀ bo, ∃ h,
      decode_header bo
        (take sizeof_buffer_header (sampling_timer_handler bo g).1) = Some h
      ∧ n_mac h = Z.of_nat (occupied_count g).
Proof.
  intros Hg. pose proof (reachable_inv g Hg) as Hinv.
  pose proof Hinv as (Hlen & Hwf & Hch & _ & _ & _ & Hn & _).
  split_and!.
  - apply NoDup_occupied_addrs. intros i j e e' Hi Hj Hs Hs' Ha.
    by eapply (holds_unique g (addr (device e)) i j e e').
  - by rewrite length_fmap, length_occupied_devices.
  - unfold occupied_count.
    pose proof (filter_length_le is_occupied (hash_table g)).
    change (Z.to_nat MAX_DEVICES) with (Z.to_nat HASH_SIZE). lia.
  - done.
  - intros bo. exists (buffer_header g). split; [|done].
    rewrite timer_frame, send_buffer_frame by done.
    rewrite take_app_length' by (by rewrite length_buffer_header_bytes).
    by apply decode_header_bytes.
Qed.

Lemma wf_fill_reports : Forall wf_report fill_reports.
Proof. apply (bool_decide_unpack _). vm_compute. exact I. Qed.

Lemma wf_extra_report : wf_report extra_report.
Proof. apply (bool_decide_unpack _). vm_compute. exact I. Qed.

(** The table filled to capacity, and one more report: the number of
    occupied slots stays at 1024 and the report is counted. *)
Example full_state_counts :
  occupied_count full_state = 1024%nat
  ∧ n_adv_raw (buffer_header full_state) = 1024
  ∧ (λ g, (occupied_count g, n_mac (buffer_header g),
           n_adv_raw (buffer_header g))) <$> scan_cb full_state extra_report
    = Some (1024%nat, 1024, 1025).
Proof. vm_compute. done. Qed.

Lemma unique_count_is_occupancy_witness :
  NoDup (addr <$> occupied_devices full_state)
  ∧ length (addr <$> occupied_devices full_state) = occupied_count full_state
  ∧ (occupied_count full_state <= Z.to_nat MAX_DEVICES)%nat
  ∧ n_mac (buffer_header full_state) = Z.of_nat (occupied_count full_state)
  ∧ ∀ bo, ∃ h,
      decode_header bo
        (take sizeof_buffer_header (sampling_timer_handler bo full_state).1)
      = Some h
      ∧ n_mac h = Z.of_nat (occupied_count full_state).
Proof.
  apply (unique_count_is_occupancy full_state).
  unfold full_state. apply reachable_default_scan_all.
  - apply reach_main.
  - apply (bool_decide_unpack _). vm_compute. exact I.
Defined.

(** ** Round trip of the frame *)

Lemma device_data_bytes_range d :
  wf_device d → Forall is_u8 (device_data_bytes d).
Proof.
  intros (_ & Ha & Hty & Hadv & _ & Hlen & _ & Hd & Hn).
  unfold device_data_bytes.
  apply Forall_app. split; [done|].
  repeat (apply Forall_cons_2; [try done|]).
  - apply u8_range.
  - unfold is_u8. lia.
  - apply Forall_app. split; [done|].
    apply Forall_cons_2; [done|apply Forall_nil_2].
Qed.

Lemma concat_devices_range ds :
  Forall wf_device ds → Forall is_u8 (concat (device_data_bytes <$> ds)).
Proof.
  induction 1 as [|d ds Hd _ IH]; [apply Forall_nil_2|].
  cbn [fmap list_fmap concat]. apply Forall_app. split; [|exact IH].
  by apply device_data_bytes_range.
Qed.

Lemma buffer_header_bytes_range bo g :
  inv g → Forall is_u8 (buffer_header_bytes bo (buffer_header g)).
Proof.
  intros (Hlen & _ & _ & Hh & Hseq & Hraw & Hn & _).
  unfold buffer_header_bytes. rewrite Hh.
  apply Forall_app. split.
  { apply Forall_replicate. unfold is_u8, UART_HEADER_MAGIC. lia. }
  apply Forall_cons_2; [done|].
  apply Forall_app. split; apply u16_bytes_range; [done|].
  rewrite Hn. unfold occupied_count.
  pose proof (filter_length_le is_occupied (hash_table g)).
  rewrite Hlen in *. unfold_consts. lia.
Qed.

Lemma frame_sequence_byte bo g :
  inv g →
  (sampling_timer_handler bo g).1 !! 4%nat = Some (sequence (buffer_header g)).
Proof.
  intros Hinv. pose proof Hinv as (_ & _ & _ & Hh & _).
  rewrite timer_frame, send_buffer_frame by done.
  unfold buffer_header_bytes. rewrite Hh. reflexivity.
Qed.

(** C6. The frame written at a timer expiry is the nine-byte header (four
    sync bytes [0x55], the sequence number, the raw event count and the
    unique count, the last two on two bytes each in the host's order)
    followed by one 42-byte record per occupied slot, and nothing else; all
    its elements are bytes.  Decoding it by the layout of the report format
    gives back the header fields and the record of every occupied slot,
    field by field, for any occupancy from 0 to [HASH_SIZE]. *)
Theorem frame_round_trip (bo : byte_order) (g : globals) :
  reachable g →
  let frame := (sampling_timer_handler bo g).1 in
  frame = buffer_header_bytes bo (buffer_header g)
          ++ concat (device_data_bytes <$> occupied_devices g)
  ∧ take 4 frame = replicate 4 85
  ∧ frame !! 4%nat = Some (sequence (buffer_header g))
  ∧ length frame = (9 + 42 * occupied_count g)%nat
  ∧ (occupied_count g <= Z.to_nat HASH_SIZE)%nat
  ∧ Forall is_u8 frame
  ∧ decode_frame bo frame = Some (buffer_header g, occupied_devices g).
Proof.
  intros Hg frame. pose proof (reachable_inv g Hg) as Hinv.
  pose proof Hinv as (Hlen & _ & _ & Hh & _).
  assert (frame = buffer_header_bytes bo (buffer_header g)
                  ++ concat (device_data_bytes <$> occupied_devices g))
    as Hframe by (unfold frame; rewrite timer_frame;
                  by apply send_buffer_frame).
  pose proof (wf_occupied_devices g Hinv) as Hds.
  split_and!.
  - exact Hframe.
  - rewrite Hframe. unfold buffer_header_bytes. rewrite Hh.
    rewrite <- app_assoc. by rewrite take_app_length'.
  - by apply frame_sequence_byte.
  - rewrite Hframe, length_app, length_buffer_header_bytes by done.
    rewrite length_concat_devices by done.
    by rewrite length_occupied_devices.
  - unfold occupied_count.
    pose proof (filter_length_le is_occupied (hash_table g)). lia.
  - rewrite Hframe. apply Forall_app. split.
    + by apply buffer_header_bytes_range.
    + by apply concat_devices_range.
  - unfold frame. rewrite timer_frame. by apply decode_frame_send_buffer.
Qed.

(** The frame of an empty window. *)
Example empty_frame :
  (sampling_timer_handler LittleEndian main_init).1
  = [85; 85; 85; 85; 0; 0; 0; 0; 0].
Proof. vm_compute. reflexivity. Qed.

(** The frame of the second window of [reuse_state], decoded. *)
Example reuse_frame_decoded :
  decode_frame LittleEndian (sampling_timer_handler LittleEndian reuse_state).1
  = Some (mk_buffer_header [85; 85; 85; 85] 1 2 1,
          [mk_device_data [1; 2; 3; 4; 5; 6] 1 4 (-90) 2
             ([9; 8] ++ replicate 29 0) 2]).
Proof. vm_compute. reflexivity. Qed.

Lemma frame_round_trip_witness :
  decode_frame LittleEndian (sampling_timer_handler LittleEndian main_init).1
  = Some (buffer_header main_init, occupied_devices main_init)
  ∧ decode_frame BigEndian (sampling_timer_handler BigEndian full_state).1
    = Some (buffer_header full_state, occupied_devices full_state).
Proof.
  split.
  - apply (frame_round_trip LittleEndian main_init). apply reach_main.
  - apply (frame_round_trip BigEndian full_state).
    unfold full_state. apply reachable_default_scan_all.
    + apply reach_main.
    + apply (bool_decide_unpack _). vm_compute. exact I.
Defined.

(** ** Sequence numbers *)

Lemma scan_cb_header g r g' :
  inv g → wf_report r → scan_cb g r = Some g' →
  sequence (buffer_header g') = sequence (buffer_header g)
  ∧ n_adv_raw (buffer_header g') = u16 (n_adv_raw (buffer_header g) + 1).
Proof.
  intros Hinv Hr Hscan.
  destruct (scan_cb_effect g r Hinv Hr)
    as [(_ & _ & Heq)|(k & e & n & g2 & _ & _ & _ & _ & _ & Heq)];
    rewrite Heq in Hscan; injection Hscan as <-; done.
Qed.

Lemma scan_all_sequence rs : ∀ g g',
  inv g → Forall wf_report rs → scan_all g rs = Some g' →
  sequence (buffer_header g') = sequence (buffer_header g).
Proof.
  induction rs as [|r rs IH]; intros g g' Hinv Hrs Hall.
  { cbn in Hall. congruence. }
  apply Forall_cons_1 in Hrs as [Hr Hrs]. cbn [scan_all] in Hall.
  destruct (scan_cb_inv g r Hinv Hr) as (g1 & Hscan & Hinv1).
  rewrite Hscan in Hall. cbn [mbind option_bind] in Hall.
  rewrite (IH g1 g' Hinv1 Hrs Hall).
  by destruct (scan_cb_header g r g1 Hinv Hr Hscan).
Qed.

(** The reset takes the next sequence number, modulo 256. *)
Lemma timer_sequence bo g :
  inv g →
  sequence (buffer_header (sampling_timer_handler bo g).2)
  = (sequence (buffer_header g) + 1) mod 256.
Proof. intros (_ & _ & _ & _ & _ & _ & _ & _ & Hmsg & _). exact Hmsg. Qed.

(** C7. Over any number of consecutive windows, whatever reports arrive
    in each, the program writes one frame per window, and the sequence
    byte of the [k]-th frame (from 0) is [(s0 + k) mod 256], where [s0] is
    the sequence number of the first of these windows. *)
Theorem sequence_numbers (bo : byte_order) (ws : list (list adv_report)) :
  ∀ g : globals,
  reachable g → Forall (Forall wf_report) ws →
  ∃ frames g',
    run_windows bo g ws = Some (frames, g')
    ∧ reachable g'
    ∧ length frames = length ws
    ∧ ∀ (k : nat) frame, frames !! k = Some frame →
        frame !! 4%nat
        = Some ((sequence (buffer_header g) + Z.of_nat k) mod 256).
Proof.
  induction ws as [|w ws IH]; intros g Hg Hws.
  { exists [], g. by split_and!. }
  apply Forall_cons_1 in Hws as [Hw Hws].
  pose proof (reachable_inv g Hg) as Hinv.
  destruct (scan_all_inv w g Hinv Hw) as (g1 & Hall & Hinv1).
  pose proof (reachable_scan_all w g g1 Hg Hw Hall) as Hg1.
  pose proof (scan_all_sequence w g g1 Hinv Hw Hall) as Hseq1.
  pose proof (reach_timer bo g1 Hg1) as Hg2.
  destruct (IH _ Hg2 Hws) as (frames & g' & Hrun & Hg' & Hlen & Hframes).
  pose proof (frame_sequence_byte bo g1 Hinv1) as Hf1.
  remember (sampling_timer_handler bo g1).1 as f1 eqn:Ef1.
  exists (f1 :: frames), g'.
  split_and!.
  - cbn [run_windows]. rewrite Hall. cbn [mbind option_bind].
    rewrite Hrun. cbn [mbind option_bind fst snd]. by rewrite Ef1.
  - done.
  - cbn [length]. by rewrite Hlen.
  - intros k frame Hk. destruct k as [|k]; cbn in Hk.
    + injection Hk as <-. rewrite Hf1, Hseq1, Z.add_0_r.
      destruct Hinv as (_ & _ & _ & _ & Hs & _).
      by rewrite Z.mod_small.
    + rewrite (Hframes k frame Hk). f_equal.
      rewrite timer_sequence, Hseq1 by done.
      rewrite Zplus_mod_idemp_l. f_equal. lia.
Qed.

(** The first 258 frames of the program, with no report at all: the
    sequence byte counts from 0, reaches 255 and starts again at 0. *)
Example sequence_wraps :
  (λ res, (λ k : nat, res.1 !! k ≫= (.!! 4%nat)) <$> [0; 1; 255; 256; 257]%nat)
    <$> run_windows LittleEndian main_init (replicate 258 [])
  = Some (Some <$> [0; 1; 255; 0; 1]).
Proof. vm_compute. reflexivity. Qed.

Lemma sequence_numbers_witness :
  ∃ frames g',
    run_windows LittleEndian main_init
      [[long_report; short_report]; []; [extra_report]]
    = Some (frames, g')
    ∧ reachable g'
    ∧ length frames = 3%nat
    ∧ ∀ (k : nat) frame, frames !! k = Some frame →
        frame !! 4%nat
        = Some ((sequence (buffer_header main_init) + Z.of_nat k) mod 256).
Proof.
  apply (sequence_numbers LittleEndian
           [[long_report; short_report]; []; [extra_report]] main_init).
  - apply reach_main.
  - repeat constructor; apply (bool_decide_unpack _); vm_compute; exact I.
Defined.

(** ** The record of one identifier through a window *)

(** A report of another address leaves the slots that hold [mac] as they
    are, and creates none. *)
Lemma scan_cb_other g r g' mac :
  inv g → wf_report r → rep_addr r ≠ mac → scan_cb g r = Some g' →
  ∀ (i : nat) e, holds mac e →
    hash_table g' !! i = Some e ↔ hash_table g !! i = Some e.
Proof.
  intros Hinv Hr Hne Hscan i e Hh.
  destruct (scan_cb_effect g r Hinv Hr)
    as [(_ & _ & Heq)|(k & e0 & n & g2 & Hk & Hp & Hl & He0 & _ & Heq)];
    rewrite Heq in Hscan; injection Hscan as <-; [done|].
  unfold recorded_state. cbn [hash_table].
  destruct (decide (i = Z.to_nat (slot (hash_mac (rep_addr r)) k)))
    as [->|Hi].
  - rewrite list_lookup_insert_eq by (by eapply lookup_lt_Some).
    rewrite Hl. destruct Hh as [Hs Ha]. split; intros [= <-].
    + by cbn in Ha.
    + destruct He0 as [[[_ Ha0] _]|[Hs0 _]]; congruence.
  - by rewrite list_lookup_insert_ne.
Qed.

(** A free slot at the stopping point of the probe of [mac] means that the
    table has no record for [mac]. *)
Lemma free_stop_absent g mac (k : nat) e :
  chained g → passes_over g mac k →
  hash_table g !! Z.to_nat (slot (hash_mac mac) k) = Some e →
  state e ≠ ENTRY_OCCUPIED →
  absent g mac.
Proof.
  intros Hch Hp Hl Hs i e1 Hl1 Hh1.
  destruct (chained_holds _ _ _ _ Hch Hl1 Hh1) as (k1 & _ & <- & Hp1).
  assert (k1 = k) as ->.
  { eapply (first_stop_unique g mac k1 k); eauto using holds_not_other,
      free_not_other. }
  destruct Hh1 as [Hs1 _]. congruence.
Qed.

(** A report of [mac] that is not dropped leaves the record of [mac]
    holding the fields of the report, with the counter one above its
    previous value, or at 1 if there was no record. *)
Lemma scan_cb_same g r g' :
  inv g → wf_report r → scan_cb g r = Some g' →
  (∃ g2 index,
     find_or_add_device
       (set_n_adv_raw g (u16 (n_adv_raw (buffer_header g) + 1))) (rep_addr r)
     = Some (g2, Some index)) →
  ∃ n, record_at g' (rep_addr r) (recorded (rep_addr r) r (u8 (n + 1)))
       ∧ (absent g (rep_addr r) ∧ n = 0
          ∨ ∃ d, record_at g (rep_addr r) d ∧ n = n_adv d).
Proof.
  intros Hinv Hr Hscan (g2 & index & Hfind).
  pose proof Hinv as (_ & _ & Hch & _).
  destruct (scan_cb_effect g r Hinv Hr)
    as [(Hfull & _ & _)|(k & e & n & g3 & Hk & Hp & Hl & He & _ & Heq)];
    [congruence|].
  rewrite Heq in Hscan. injection Hscan as <-.
  exists n. split.
  - exists (Z.to_nat (slot (hash_mac (rep_addr r)) k)),
      (mk_hash_entry ENTRY_OCCUPIED (recorded (rep_addr r) r (u8 (n + 1)))).
    split; [|by split].
    unfold recorded_state. cbn [hash_table].
    apply list_lookup_insert_eq. by eapply lookup_lt_Some.
  - destruct He as [[Hh ->]|[Hs ->]].
    + right. exists (device e). split; [|done]. by eexists _, e.
    + left. split; [|done]. by eapply free_stop_absent.
Qed.

Lemma record_at_unique g mac d d' :
  inv g → record_at g mac d → record_at g mac d' → d = d'.
Proof.
  intros (_ & _ & Hch & _) (i & e & Hl & Hh & <-) (j & e' & Hl' & Hh' & <-).
  assert (i = j) as -> by (by eapply holds_unique). congruence.
Qed.

Lemma record_at_not_absent g mac d : record_at g mac d → ¬ absent g mac.
Proof. intros (i & e & Hl & Hh & _) Habs. by eapply Habs. Qed.

Lemma u8_add_u8 a b : u8 (u8 a + b) = u8 (a + b).
Proof. unfold u8. by rewrite Zplus_mod_idemp_l. Qed.

Lemma last_report_None mac rs :
  last_report mac rs = None → reports_of mac rs = [].
Proof.
  induction rs as [|r rs IH]; [done|]. cbn [last_report].
  destruct (last_report mac rs); [done|].
  unfold reports_of in *. cbn [List.filter].
  destruct (bool_decide (rep_addr r = mac)); [done|]. auto.
Qed.

(** The record of [mac] after a run of reports none of which was dropped
    for [mac]: it holds the fields of the last report of [mac], and its
    counter has advanced by the number of reports of [mac], modulo 256. *)
Lemma scan_all_track mac rs : ∀ g,
  inv g → Forall wf_report rs → never_full g rs mac = true →
  ∃ g', scan_all g rs = Some g' ∧ inv g'
    ∧ match last_report mac rs with
      | None =>
        (absent g mac → absent g' mac)
        ∧ (∀ d, record_at g mac d → record_at g' mac d)
      | Some r =>
        ∃ n0, (absent g mac ∧ n0 = 0 ∨ ∃ d, record_at g mac d ∧ n0 = n_adv d)
              ∧ record_at g' mac
                  (recorded mac r
                     (u8 (n0 + Z.of_nat (length (reports_of mac rs)))))
      end.
Proof.
  induction rs as [|r rs IH]; intros g Hinv Hrs Hnf.
  { exists g. by split_and!. }
  apply Forall_cons_1 in Hrs as [Hr Hrs].
  destruct (scan_cb_inv g r Hinv Hr) as (g1 & Hscan & Hinv1).
  cbn [never_full] in Hnf. rewrite Hscan in Hnf.
  apply andb_true_iff in Hnf as [Hacc Hnf].
  destruct (IH g1 Hinv1 Hrs Hnf) as (g' & Hall & Hinv' & Htrack).
  exists g'. split; [cbn [scan_all]; by rewrite Hscan|]. split; [done|].
  cbn [last_report]. unfold reports_of in *. cbn [List.filter].
  destruct (bool_decide (rep_addr r = mac)) eqn:Hmac.
  - apply bool_decide_eq_true_1 in Hmac. subst mac.
    destruct (scan_cb_same g r g1 Hinv Hr Hscan) as (n & Hrec1 & Hn).
    { destruct (find_or_add_device _ _) as [[g2 [index|]]|]; [|done..].
      by exists g2, index. }
    destruct (last_report (rep_addr r) rs) as [r'|] eqn:Hlast.
    + destruct Htrack as (n1 & [[Habs _]|(d & Hd & ->)] & Hrec').
      { by apply record_at_not_absent in Hrec1. }
      rewrite (record_at_unique _ _ _ _ Hinv1 Hd Hrec1) in Hrec'.
      exists n. split; [done|].
      cbn [n_adv recorded length] in Hrec' |- *.
      rewrite u8_add_u8 in Hrec'.
      by replace (n + Z.of_nat (S (length (List.filter
                   (λ r0, bool_decide (rep_addr r0 = rep_addr r)) rs))))
        with (n + 1 + Z.of_nat (length (List.filter
                   (λ r0, bool_decide (rep_addr r0 = rep_addr r)) rs)))
        by lia.
    + apply last_report_None in Hlast. unfold reports_of in Hlast.
      rewrite Hlast. cbn [length].
      destruct Htrack as [_ Hkeep].
      exists n. split; [done|]. by apply Hkeep.
  - apply bool_decide_eq_false_1 in Hmac.
    pose proof (scan_cb_other g r g1 mac Hinv Hr Hmac Hscan) as Hsame.
    assert (absent g mac → absent g1 mac) as Habs1.
    { intros Habs i e Hl Hh. eapply Habs; [|done]. by apply Hsame. }
    assert (∀ d, record_at g mac d → record_at g1 mac d) as Hrec1.
    { intros d (i & e & Hl & Hh & Hd). exists i, e.
      split; [by apply Hsame|done]. }
    destruct (last_report mac rs) as [r'|].
    + destruct Htrack as (n1 & Hn1 & Hrec').
      assert (absent g1 mac → absent g mac) as Habs0.
      { intros Habs i e Hl Hh. eapply Habs; [|done]. by apply Hsame. }
      assert (∀ d, record_at g1 mac d → record_at g mac d) as Hrec0.
      { intros d (i & e & Hl & Hh & Hd). exists i, e.
        split; [by apply Hsame|done]. }
      exists n1. split; [|done].
      destruct Hn1 as [[? ?]|(d & ? & ?)]; [left|right; exists d]; auto.
    + destruct Htrack as [Ha Hk]. split; auto.
Qed.

Lemma recorded_payload (l : list Z) :
  let len := Z.min (Z.of_nat (length l)) 31 in
  take (Z.to_nat len) l ++ replicate (31 - Z.to_nat len) 0
  = take 31 l ++ replicate (31 - length l) 0.
Proof.
  intros len. unfold len. destruct (decide (length l <= 31)%nat).
  - replace (Z.to_nat (Z.min (Z.of_nat (length l)) 31)) with (length l) by lia.
    by rewrite !take_ge by lia.
  - replace (Z.to_nat (Z.min (Z.of_nat (length l)) 31)) with 31%nat by lia.
    by replace (31 - length l)%nat with (31 - 31)%nat by lia.
Qed.

Lemma absent_at_start g mac : window_start g → absent g mac.
Proof.
  intros Hs i e Hl [Ho _].
  destruct (window_start_empty g Hs) as [Ht _]. rewrite Ht in Hl.
  apply lookup_replicate_1 in Hl as [-> _]. done.
Qed.

(** C1, amended.  In a window, for an identifier with [N >= 1] reports
    none of which was refused by the table, the table holds exactly one
    record of that identifier; its [n_adv] is [N mod 256]; its
    [addr_type], [adv_type] and [rssi] are those of the most recent of the
    [N] reports, its [data_len] is the length of that report's payload cut
    at 31, and its [data] is that payload cut at 31 bytes and padded with
    zeros. *)
Theorem duplicate_reports_merge (g0 : globals) (rs : list adv_report)
    (mac : list Z) :
  window_start g0 →
  Forall wf_report rs →
  reports_of mac rs ≠ [] →
  never_full g0 rs mac = true →
  ∃ g r (i : nat) e,
    scan_all g0 rs = Some g
    ∧ last_report mac rs = Some r
    ∧ hash_table g !! i = Some e
    ∧ state e = ENTRY_OCCUPIED ∧ addr (device e) = mac
    ∧ (∀ (j : nat) e', hash_table g !! j = Some e' →
         state e' = ENTRY_OCCUPIED → addr (device e') = mac → j = i)
    ∧ n_adv (device e) = Z.of_nat (length (reports_of mac rs)) mod 256
    ∧ addr_type (device e) = rep_addr_type r
    ∧ adv_type (device e) = rep_adv_type r
    ∧ rssi (device e) = rep_rssi r
    ∧ data_len (device e) = Z.min (Z.of_nat (length (rep_data r))) 31
    ∧ data (device e)
      = take 31 (rep_data r) ++ replicate (31 - length (rep_data r)) 0.
Proof.
  intros Hstart Hrs Hsome Hnf.
  pose proof (reachable_inv g0 (window_start_reachable g0 Hstart)) as Hinv.
  destruct (scan_all_track mac rs g0 Hinv Hrs Hnf)
    as (g & Hall & Hinv' & Htrack).
  destruct (last_report mac rs) as [r|] eqn:Hlast;
    [|by apply last_report_None in Hlast].
  destruct Htrack as (n0 & Hn0 & (i & e & Hl & Hh & He)).
  assert (n0 = 0) as ->.
  { destruct Hn0 as [[_ ->]|(d & Hd & _)]; [done|]. exfalso.
    eapply record_at_not_absent; [exact Hd|]. by apply absent_at_start. }
  exists g, r, i, e. destruct Hh as [Hs Ha].
  split; [done|]. split; [done|]. split; [done|]. split; [done|].
  split; [done|]. split.
  { intros j e' Hl' Hs' Ha'. destruct Hinv' as (_ & _ & Hch & _).
    by eapply (holds_unique g mac j i e' e). }
  rewrite He. cbn [recorded n_adv addr_type adv_type rssi data_len data].
  split; [by rewrite Z.add_0_l|]. split; [done|]. split; [done|].
  split; [done|]. split; [done|]. apply recorded_payload.
Qed.

(** Reports of three identifiers in the order A, B, A, C, A: three
    records, five reports counted, and the record of A has counted 3. *)
Example five_reports :
  (λ g, (n_mac (buffer_header g), n_adv_raw (buffer_header g),
         n_adv <$> occupied_devices g))
    <$> scan_all main_init
          [home_report; extra_report; home_report; sample_report 5;
           home_report]
  = Some (3, 5, [3; 1; 1]).
Proof. vm_compute. reflexivity. Qed.

Lemma wf_repeated_reports : Forall wf_report repeated_reports.
Proof. apply Forall_replicate, wf_extra_report. Qed.

(** C1 as stated fails: after 256 reports of one identifier in the first
    window, none of them refused, its record has [n_adv = 0], not 256. *)
Lemma duplicate_reports_counterexample :
  let mac := rep_addr extra_report in
  window_start main_init
  ∧ Forall wf_report repeated_reports
  ∧ never_full main_init repeated_reports mac = true
  ∧ length (reports_of mac repeated_reports) = 256%nat
  ∧ ∃ g e,
      scan_all main_init repeated_reports = Some g
      ∧ hash_table g !! 117%nat = Some e
      ∧ state e = ENTRY_OCCUPIED ∧ addr (device e) = mac
      ∧ n_adv (device e) = 0
      ∧ n_adv (device e) ≠ Z.of_nat (length (reports_of mac repeated_reports)).
Proof.
  split; [constructor|]. split; [apply wf_repeated_reports|].
  split; [vm_compute; reflexivity|]. split; [vm_compute; reflexivity|].
  exists (default main_init (scan_all main_init repeated_reports)).
  eexists. split; [vm_compute; reflexivity|].
  split; [vm_compute; reflexivity|]. vm_compute.
  split; [reflexivity|]. split; [reflexivity|]. split; [reflexivity|]. done.
Qed.

Lemma duplicate_reports_merge_witness :
  ∃ g r (i : nat) e,
    scan_all main_init repeated_reports = Some g
    ∧ last_report (rep_addr extra_report) repeated_reports = Some r
    ∧ hash_table g !! i = Some e
    ∧ state e = ENTRY_OCCUPIED ∧ addr (device e) = rep_addr extra_report
    ∧ (∀ (j : nat) e', hash_table g !! j = Some e' →
         state e' = ENTRY_OCCUPIED →
         addr (device e') = rep_addr extra_report → j = i)
    ∧ n_adv (device e)
      = Z.of_nat (length (reports_of (rep_addr extra_report) repeated_reports))
        mod 256
    ∧ addr_type (device e) = rep_addr_type r
    ∧ adv_type (device e) = rep_adv_type r
    ∧ rssi (device e) = rep_rssi r
    ∧ data_len (device e) = Z.min (Z.of_nat (length (rep_data r))) 31
    ∧ data (device e)
      = take 31 (rep_data r) ++ replicate (31 - length (rep_data r)) 0.
Proof.
  apply (duplicate_reports_merge main_init repeated_reports
           (rep_addr extra_report)).
  - apply start_main.
  - apply Forall_replicate. apply (bool_decide_unpack _). vm_compute. exact I.
  - vm_compute. discriminate.
  - vm_compute. reflexivity.
Defined.

(** ** Counter widths *)

Lemma u16_add_u16 a b : u16 (u16 a + b) = u16 (a + b).
Proof. unfold u16. by rewrite Zplus_mod_idemp_l. Qed.

Lemma scan_all_raw_count rs : ∀ g g',
  inv g → Forall wf_report rs → scan_all g rs = Some g' →
  n_adv_raw (buffer_header g')
  = u16 (n_adv_raw (buffer_header g) + Z.of_nat (length rs)).
Proof.
  induction rs as [|r rs IH]; intros g g' Hinv Hrs Hall.
  { cbn in Hall. injection Hall as <-. cbn [length].
    destruct Hinv as (_ & _ & _ & _ & _ & Hraw & _).
    by rewrite Z.add_0_r, u16_small. }
  apply Forall_cons_1 in Hrs as [Hr Hrs]. cbn [scan_all] in Hall.
  destruct (scan_cb_inv g r Hinv Hr) as (g1 & Hscan & Hinv1).
  rewrite Hscan in Hall. cbn [mbind option_bind] in Hall.
  rewrite (IH g1 g' Hinv1 Hrs Hall).
  destruct (scan_cb_header g r g1 Hinv Hr Hscan) as [_ ->].
  rewrite u16_add_u16. f_equal. cbn [length]. lia.
Qed.

(** C10. The counters wrap.  After the reports [rs] of a window,
    [n_adv_raw] is the number of reports modulo [2^16]; and the record of
    an identifier that had [N >= 1] reports, none refused, has [n_adv]
    equal to [N mod 2^8], also when [N > 255].  The run always returns:
    nothing saturates or traps. *)
Theorem counters_wrap (g0 : globals) (rs : list adv_report) (mac : list Z) :
  window_start g0 →
  Forall wf_report rs →
  ∃ g,
    scan_all g0 rs = Some g
    ∧ n_adv_raw (buffer_header g) = Z.of_nat (length rs) mod 2 ^ 16
    ∧ (reports_of mac rs ≠ [] → never_full g0 rs mac = true →
       ∃ (i : nat) e,
         hash_table g !! i = Some e
         ∧ state e = ENTRY_OCCUPIED ∧ addr (device e) = mac
         ∧ n_adv (device e)
           = Z.of_nat (length (reports_of mac rs)) mod 2 ^ 8).
Proof.
  intros Hstart Hrs.
  pose proof (reachable_inv g0 (window_start_reachable g0 Hstart)) as Hinv.
  destruct (scan_all_inv rs g0 Hinv Hrs) as (g & Hall & Hinv').
  exists g. split; [done|]. split.
  { rewrite (scan_all_raw_count rs g0 g Hinv Hrs Hall).
    destruct (window_start_empty g0 Hstart) as [_ ->].
    by rewrite Z.add_0_l. }
  intros Hsome Hnf.
  destruct (scan_all_track mac rs g0 Hinv Hrs Hnf)
    as (g1 & Hall1 & _ & Htrack).
  assert (g1 = g) as -> by congruence.
  destruct (last_report mac rs) as [r|] eqn:Hlast;
    [|by apply last_report_None in Hlast].
  destruct Htrack as (n0 & Hn0 & (i & e & Hl & [Hs Ha] & He)).
  assert (n0 = 0) as ->.
  { destruct Hn0 as [[_ ->]|(d & Hd & _)]; [done|]. exfalso.
    eapply record_at_not_absent; [exact Hd|]. by apply absent_at_start. }
  exists i, e. split; [done|]. split; [done|]. split; [done|].
  rewrite He. cbn [recorded n_adv]. by rewrite Z.add_0_l.
Qed.

(** 65537 reports of one identifier in the first window: both counters
    have wrapped to 1. *)
Example counters_after_65537 :
  (λ g, (n_adv_raw (buffer_header g),
         n_adv ∘ device <$> hash_table g !! 0%nat))
    <$> scan_all main_init (replicate (Z.to_nat 65537) home_report)
  = Some (1, Some 1).
Proof. vm_compute. reflexivity. Qed.

Lemma counters_wrap_witness :
  ∃ g (i : nat) e,
    scan_all main_init repeated_reports = Some g
    ∧ n_adv_raw (buffer_header g)
      = Z.of_nat (length repeated_reports) mod 2 ^ 16
    ∧ hash_table g !! i = Some e
    ∧ state e = ENTRY_OCCUPIED
    ∧ addr (device e) = rep_addr extra_report
    ∧ n_adv (device e)
      = Z.of_nat
          (length (reports_of (rep_addr extra_report) repeated_reports))
        mod 2 ^ 8.
Proof.
  destruct (counters_wrap main_init repeated_reports (rep_addr extra_report))
    as (g & Hall & Hraw & Hrec).
  - apply start_main.
  - apply Forall_replicate. apply (bool_decide_unpack _). vm_compute. exact I.
  - destruct Hrec as (i & e & Hl & Hs & Ha & Hn).
    + vm_compute. discriminate.
    + vm_compute. reflexivity.
    + exists g, i, e. by split_and!.
Defined.

(** ** Examples for [find_or_add_device] *)

Lemma passes_over_0 g mac : passes_over g mac 0.
Proof. intros j Hj. lia. Qed.

Lemma full_state_passes_over :
  passes_over full_state (rep_addr extra_report) (Z.to_nat HASH_SIZE).
Proof. apply passes_overb_spec. vm_compute. reflexivity. Qed.

Lemma find_or_add_device_full_unchanged_witness :
  full_state = full_state
  ∧ hash_table full_state = hash_table full_state
  ∧ n_mac (buffer_header full_state) = n_mac (buffer_header full_state)
  ∧ hash_entries full_state = hash_entries full_state.
Proof.
  apply (find_or_add_device_full_unchanged full_state full_state
           (rep_addr extra_report)).
  apply probe_wrap. apply passes_overb_spec. vm_compute. reflexivity.
Defined.

Lemma find_or_add_device_probe_witness :
  let mac := rep_addr extra_report in
  let index := slot (hash_mac mac) 0 in
  find_or_add_device one_report_state mac = Some (one_report_state, Some index)
  ∧ find_or_add_device saturated_state mac = Some (saturated_state, None)
  ∧ find_or_add_device main_init mac
    = Some (mk_globals
              (<[Z.to_nat index := claimed_entry zero_entry mac]>
                 (hash_table main_init))
              (mk_buffer_header (header (buffer_header main_init))
                 (sequence (buffer_header main_init))
                 (n_adv_raw (buffer_header main_init))
                 (n_mac (buffer_header main_init) + 1))
              (buffer_active main_init) (msg_sequence main_init)
              (hash_entries main_init + 1),
            Some index)
  ∧ find_or_add_device full_state mac = Some (full_state, None).
Proof.
  intros mac index. split_and!.
  - destruct (find_or_add_device_probe one_report_state mac)
      as (Hhit & _).
    eapply (Hhit 0%nat).
    + vm_compute. lia.
    + apply passes_over_0.
    + vm_compute. reflexivity.
    + reflexivity.
    + reflexivity.
  - destruct (find_or_add_device_probe saturated_state mac)
      as (_ & Hfull & _).
    eapply (Hfull 0%nat zero_entry).
    + vm_compute. lia.
    + apply passes_over_0.
    + vm_compute. reflexivity.
    + discriminate.
    + left. vm_compute. discriminate.
  - destruct (find_or_add_device_probe main_init mac)
      as (_ & _ & Hins & _).
    eapply (Hins 0%nat zero_entry).
    + vm_compute. lia.
    + apply passes_over_0.
    + vm_compute. reflexivity.
    + discriminate.
    + vm_compute. split; [discriminate|reflexivity].
    + vm_compute. split; [discriminate|reflexivity].
  - destruct (find_or_add_device_probe full_state mac)
      as (_ & _ & _ & Hwrap & _).
    apply Hwrap. apply passes_overb_spec. vm_compute. reflexivity.
Defined.

(** * Further properties of the program *)

(** ** When the table refuses an identifier *)

Lemma slot_onto home (i : nat) :
  (i < Z.to_nat HASH_SIZE)%nat →
  ∃ k : nat, (k < Z.to_nat HASH_SIZE)%nat ∧ Z.to_nat (slot home k) = i.
Proof.
  intros Hi. exists (Z.to_nat ((Z.of_nat i - home) mod HASH_SIZE)).
  pose proof (Z.mod_pos_bound (Z.of_nat i - home) HASH_SIZE eq_refl) as Hb.
  unfold slot. unfold_consts. split; [lia|].
  rewrite Z2Nat.id by lia. rewrite Zplus_mod_idemp_r.
  replace (home + (Z.of_nat i - home)) with (Z.of_nat i) by lia.
  rewrite Z.mod_small by lia. lia.
Qed.

Lemma filter_length_all {A} (f : A → bool) (l : list A) :
  (∀ (i : nat) x, l !! i = Some x → f x = true) →
  length (List.filter f l) = length l.
Proof.
  induction l as [|a l IH]; intros Hall; [done|]. cbn [List.filter].
  rewrite (Hall 0%nat a eq_refl). cbn [length]. f_equal. apply IH.
  intros i x Hl. by apply (Hall (S i)).
Qed.

Lemma filter_length_full {A} (f : A → bool) (l : list A) (i : nat) x :
  length (List.filter f l) = length l → l !! i = Some x → f x = true.
Proof.
  intros Hlen Hl. destruct (f x) eqn:Hf; [done|].
  pose proof (filter_length_lt f l i x Hl Hf). lia.
Qed.

(** After a full turn every slot holds another device. *)
Lemma passes_over_all g mac (i : nat) e :
  length (hash_table g) = Z.to_nat HASH_SIZE →
  passes_over g mac (Z.to_nat HASH_SIZE) →
  hash_table g !! i = Some e → other_device mac e.
Proof.
  intros Hlen Hp Hl.
  pose proof (lookup_lt_Some _ _ _ Hl) as Hi. rewrite Hlen in Hi.
  destruct (slot_onto (hash_mac mac) i Hi) as (k & Hk & Hki).
  destruct (Hp k Hk) as (e' & Hl' & Ho). rewrite Hki in Hl'. congruence.
Qed.

Lemma holds_take mac e :
  length mac = 6%nat → length (addr (device e)) = 6%nat →
  state e = ENTRY_OCCUPIED → take 6 (addr (device e)) = take 6 mac →
  holds mac e.
Proof.
  intros Hm Ha Hs Ht. split; [done|]. by rewrite !take_ge in Ht by lia.
Qed.

(** In a state that satisfies the invariant, [find_or_add_device] returns
    [NULL] exactly when every slot is occupied and none holds [mac]. *)
Lemma find_full_iff g mac :
  inv g → length mac = 6%nat →
  find_or_add_device g mac = Some (g, None)
  ↔ occupied_count g = Z.to_nat HASH_SIZE ∧ absent g mac.
Proof.
  intros Hinv Hm. pose proof Hinv as (Hlen & _).
  destruct (find_or_add_device_cases g mac Hlen)
    as [(k & e & Hk & Hp & Hl & Hs & Ha & Hfind)
       |[(k & e & Hk & Hp & Hl & Hs & Hfind)|[Hp Hfind]]].
  - split; [by rewrite Hfind|]. intros [_ Habs]. exfalso.
    pose proof (inv_entry _ _ _ Hinv Hl) as (_ & (Hal & _) & _).
    eapply Habs; [exact Hl|]. by apply holds_take.
  - destruct (inv_free_slot _ _ _ Hinv Hl Hs) as [Hn Hh].
    destruct (Z.leb_spec MAX_DEVICES (n_mac (buffer_header g))); [lia|].
    destruct (Z.leb_spec MAX_DEVICES (hash_entries g)); [lia|].
    split; [by rewrite Hfind|]. intros [Hfull _]. exfalso.
    unfold occupied_count in Hfull. rewrite <- Hlen in Hfull.
    pose proof (filter_length_full is_occupied _ _ _ Hfull Hl) as Ho.
    by apply is_occupied_true in Ho.
  - split; [|done]. intros _. split.
    + unfold occupied_count. rewrite <- Hlen. apply filter_length_all.
      intros i e Hl. apply is_occupied_true.
      by destruct (passes_over_all g mac i e Hlen Hp Hl).
    + intros i e Hl Hh. by eapply holds_not_other, passes_over_all.
Qed.

(** X1. In every reachable state and for every six-byte identifier,
    [find_or_add_device] returns [NULL] exactly when all [HASH_SIZE] slots
    are occupied and none of them stores the identifier; in every other
    case it returns a record.  The two counter guards of the insertion
    branch therefore never refuse an identifier while a slot is free. *)
Theorem table_full_iff (g : globals) (mac : list Z) :
  reachable g → length mac = 6%nat →
  (find_or_add_device g mac = Some (g, None)
   ↔ occupied_count g = Z.to_nat HASH_SIZE ∧ absent g mac)
  ∧ (¬ (occupied_count g = Z.to_nat HASH_SIZE ∧ absent g mac) →
     ∃ g' index, find_or_add_device g mac = Some (g', Some index)).
Proof.
  intros Hg Hm. pose proof (reachable_inv g Hg) as Hinv.
  pose proof (find_full_iff g mac Hinv Hm) as Hiff.
  split; [exact Hiff|]. intros Hnot.
  destruct Hinv as (Hlen & _).
  destruct (find_or_add_device_total g mac Hlen) as [[g' [index|]] Hfind].
  - by exists g', index.
  - exfalso. apply Hnot, Hiff.
    unfold find_or_add_device in Hfind.
    by rewrite (probe_null_unchanged _ _ _ _ _ _ Hfind) in Hfind.
Qed.

Lemma reachable_full_state : reachable full_state.
Proof.
  unfold full_state. apply reachable_default_scan_all.
  - apply reach_main.
  - apply wf_fill_reports.
Qed.

Lemma table_full_iff_witness :
  (find_or_add_device full_state (rep_addr extra_report)
   = Some (full_state, None)
   ↔ occupied_count full_state = Z.to_nat HASH_SIZE
     ∧ absent full_state (rep_addr extra_report))
  ∧ find_or_add_device full_state (rep_addr extra_report)
    = Some (full_state, None).
Proof.
  destruct (table_full_iff full_state (rep_addr extra_report))
    as [Hiff _].
  - apply reachable_full_state.
  - reflexivity.
  - split; [exact Hiff|]. apply probe_wrap, full_state_passes_over.
Defined.

(** ** Looking up what was just inserted *)

(** X2. For a table of [HASH_SIZE] slots and an identifier of at least
    six bytes: if [find_or_add_device] returns a record, a second call with
    the same identifier in the state it left returns the same record and
    changes nothing. *)
Theorem find_or_add_device_again (g g' : globals) (mac : list Z) (index : Z) :
  length (hash_table g) = Z.to_nat HASH_SIZE →
  (6 <= length mac)%nat →
  find_or_add_device g mac = Some (g', Some index) →
  find_or_add_device g' mac = Some (g', Some index).
Proof.
  intros Hlen Hm Hfind.
  destruct (find_or_add_device_cases g mac Hlen)
    as [(k & e & Hk & Hp & Hl & Hs & Ha & Hfind')
       |[(k & e & Hk & Hp & Hl & Hs & Hfind')|[Hp Hfind']]];
    rewrite Hfind' in Hfind.
  - injection Hfind as <- <-. exact Hfind'.
  - destruct (MAX_DEVICES <=? n_mac (buffer_header g)); [done|].
    destruct (MAX_DEVICES <=? hash_entries g); [done|].
    injection Hfind as <- <-.
    pose proof (lookup_lt_Some _ _ _ Hl) as Hi.
    apply (probe_hit _ mac k (claim_slot e mac)); [done| | |done|].
    + intros j Hj. destruct (Hp j Hj) as (ej & Hlj & Hoj).
      exists ej. split; [|done]. unfold insert_device. cbn [hash_table].
      rewrite list_lookup_insert_ne; [done|].
      intros Heq. apply slot_index_inj in Heq; lia.
    + unfold insert_device. cbn [hash_table].
      by apply list_lookup_insert_eq.
    + unfold claim_slot, memcpy. cbn [device addr].
      by rewrite take_app_length' by (rewrite length_take; lia).
  - done.
Qed.

Lemma find_or_add_device_again_witness :
  find_or_add_device claimed_state (rep_addr extra_report)
  = Some (claimed_state, Some 117).
Proof.
  apply (find_or_add_device_again main_init claimed_state
           (rep_addr extra_report) 117).
  - reflexivity.
  - vm_compute. lia.
  - vm_compute. reflexivity.
Defined.

(** ** What a report leaves alone *)

Lemma scan_cb_local g r :
  inv g → wf_report r →
  ∃ g' (i : nat),
    scan_cb g r = Some g'
    ∧ (∀ j : nat, j ≠ i → hash_table g' !! j = hash_table g !! j)
    ∧ length (hash_table g') = length (hash_table g)
    ∧ header (buffer_header g') = header (buffer_header g)
    ∧ sequence (buffer_header g') = sequence (buffer_header g)
    ∧ msg_sequence g' = msg_sequence g
    ∧ buffer_active g' = buffer_active g.
Proof.
  intros Hinv Hr.
  destruct (scan_cb_effect g r Hinv Hr)
    as [(_ & _ & ->)|(k & e & n & g2 & _ & _ & _ & _ & _ & ->)].
  - eexists _, 0%nat. by split_and!.
  - exists (recorded_state g r (Z.to_nat (slot (hash_mac (rep_addr r)) k)) e n),
      (Z.to_nat (slot (hash_mac (rep_addr r)) k)).
    split_and!; try done.
    + intros j Hj. unfold recorded_state. cbn [hash_table].
      by rewrite list_lookup_insert_ne.
    + unfold recorded_state. cbn [hash_table]. by rewrite length_insert.
Qed.

(** X3. In a reachable state a report changes at most one slot of the
    table; it never changes the sync pattern, the sequence number of the
    window, the next sequence number or the active flag. *)
Theorem scan_cb_one_slot (g : globals) (r : adv_report) :
  reachable g → wf_report r →
  ∃ g' (i : nat),
    scan_cb g r = Some g'
    ∧ (∀ j : nat, j ≠ i → hash_table g' !! j = hash_table g !! j)
    ∧ length (hash_table g') = length (hash_table g)
    ∧ header (buffer_header g') = header (buffer_header g)
    ∧ sequence (buffer_header g') = sequence (buffer_header g)
    ∧ msg_sequence g' = msg_sequence g
    ∧ buffer_active g' = buffer_active g.
Proof.
  intros Hg Hr. apply scan_cb_local; [by apply reachable_inv|done].
Qed.

Lemma scan_cb_one_slot_witness :
  ∃ g' (i : nat),
    scan_cb full_state extra_report = Some g'
    ∧ (∀ j : nat, j ≠ i → hash_table g' !! j = hash_table full_state !! j)
    ∧ length (hash_table g') = length (hash_table full_state)
    ∧ header (buffer_header g') = header (buffer_header full_state)
    ∧ sequence (buffer_header g') = sequence (buffer_header full_state)
    ∧ msg_sequence g' = msg_sequence full_state
    ∧ buffer_active g' = buffer_active full_state.
Proof.
  apply (scan_cb_one_slot full_state extra_report).
  - apply reachable_full_state.
  - apply wf_extra_report.
Defined.

(** ** Records stay where they are *)

Lemma scan_cb_keeps_slot g r g' (i : nat) e :
  inv g → wf_report r → scan_cb g r = Some g' →
  hash_table g !! i = Some e → state e = ENTRY_OCCUPIED →
  ∃ e', hash_table g' !! i = Some e'
        ∧ state e' = ENTRY_OCCUPIED
        ∧ addr (device e') = addr (device e).
Proof.
  intros Hinv Hr Hscan Hl Hs.
  destruct (scan_cb_effect g r Hinv Hr)
    as [(_ & _ & Heq)|(k & e0 & n & g2 & Hk & Hp & Hl0 & He0 & _ & Heq)];
    rewrite Heq in Hscan; injection Hscan as <-.
  { by exists e. }
  unfold recorded_state. cbn [hash_table].
  destruct (decide (i = Z.to_nat (slot (hash_mac (rep_addr r)) k)))
    as [->|Hi].
  - eexists. split; [by apply list_lookup_insert_eq; eapply lookup_lt_Some|].
    split; [done|]. cbn [device recorded addr].
    assert (e0 = e) as -> by congruence.
    destruct He0 as [[[_ Ha] _]|[Hfree _]]; [done|congruence].
  - exists e. by rewrite list_lookup_insert_ne.
Qed.

Lemma scan_cb_count_mono g r g' :
  inv g → wf_report r → scan_cb g r = Some g' →
  n_mac (buffer_header g) <= n_mac (buffer_header g').
Proof.
  intros Hinv Hr Hscan.
  destruct (scan_cb_effect g r Hinv Hr)
    as [(_ & _ & Heq)|(k & e0 & n & g2 & _ & _ & _ & _ & _ & Heq)];
    rewrite Heq in Hscan; injection Hscan as <-; [done|].
  unfold recorded_state. cbn [buffer_header n_mac].
  destruct (is_occupied e0); lia.
Qed.

Lemma scan_all_keeps_slots rs : ∀ g g',
  inv g → Forall wf_report rs → scan_all g rs = Some g' →
  n_mac (buffer_header g) <= n_mac (buffer_header g')
  ∧ ∀ (i : nat) e, hash_table g !! i = Some e → state e = ENTRY_OCCUPIED →
      ∃ e', hash_table g' !! i = Some e'
            ∧ state e' = ENTRY_OCCUPIED
            ∧ addr (device e') = addr (device e).
Proof.
  induction rs as [|r rs IH]; intros g g' Hinv Hrs Hall.
  { cbn in Hall. injection Hall as <-. split; [done|]. intros i e ? ?.
    by exists e. }
  apply Forall_cons_1 in Hrs as [Hr Hrs]. cbn [scan_all] in Hall.
  destruct (scan_cb_inv g r Hinv Hr) as (g1 & Hscan & Hinv1).
  rewrite Hscan in Hall. cbn [mbind option_bind] in Hall.
  destruct (IH g1 g' Hinv1 Hrs Hall) as [Hmono Hkeep].
  pose proof (scan_cb_count_mono g r g1 Hinv Hr Hscan).
  split; [lia|]. intros i e Hl Hs.
  destruct (scan_cb_keeps_slot g r g1 i e Hinv Hr Hscan Hl Hs)
    as (e1 & Hl1 & Hs1 & Ha1).
  destruct (Hkeep i e1 Hl1 Hs1) as (e' & Hl' & Hs' & Ha').
  exists e'. split_and!; [done..|congruence].
Qed.

(** X4. Within a window an occupied slot stays occupied by the same
    identifier, whatever reports follow: records are never moved, replaced
    or removed before the reset, and [n_mac] never decreases. *)
Theorem records_stay (g : globals) (rs : list adv_report) :
  reachable g → Forall wf_report rs →
  ∃ g',
    scan_all g rs = Some g'
    ∧ n_mac (buffer_header g) <= n_mac (buffer_header g')
    ∧ ∀ (i : nat) e, hash_table g !! i = Some e → state e = ENTRY_OCCUPIED →
        ∃ e', hash_table g' !! i = Some e'
              ∧ state e' = ENTRY_OCCUPIED
              ∧ addr (device e') = addr (device e).
Proof.
  intros Hg Hrs. pose proof (reachable_inv g Hg) as Hinv.
  destruct (scan_all_inv rs g Hinv Hrs) as (g' & Hall & _).
  exists g'. split; [done|]. by apply (scan_all_keeps_slots rs g g').
Qed.

Lemma records_stay_witness :
  ∃ g',
    scan_all one_report_state fill_reports = Some g'
    ∧ n_mac (buffer_header one_report_state) <= n_mac (buffer_header g')
    ∧ ∀ (i : nat) e, hash_table one_report_state !! i = Some e →
        state e = ENTRY_OCCUPIED →
        ∃ e', hash_table g' !! i = Some e'
              ∧ state e' = ENTRY_OCCUPIED
              ∧ addr (device e') = addr (device e).
Proof.
  apply (records_stay one_report_state fill_reports).
  - unfold one_report_state.
    apply (reachable_default_scan_all main_init [extra_report]).
    + apply reach_main.
    + apply Forall_cons_2; [apply wf_extra_report|apply Forall_nil_2].
  - apply wf_fill_reports.
Defined.

(** X5. No slot is ever tagged [ENTRY_DELETED]: in every reachable state
    each slot is either empty or occupied. *)
Theorem never_deleted (g : globals) :
  reachable g →
  ∀ (i : nat) e, hash_table g !! i = Some e →
    state e = ENTRY_EMPTY ∨ state e = ENTRY_OCCUPIED.
Proof.
  intros Hg i e Hl.
  destruct (inv_entry g i e (reachable_inv g Hg) Hl) as (Hs & _).
  destruct (state e); auto. done.
Qed.

Lemma never_deleted_witness :
  ∃ e, hash_table reuse_state !! 117%nat = Some e
       ∧ (state e = ENTRY_EMPTY ∨ state e = ENTRY_OCCUPIED).
Proof.
  assert (hash_table reuse_state !! 117%nat
          = Some (mk_hash_entry ENTRY_OCCUPIED
                    (recorded (rep_addr short_report) short_report 2)))
    as Hl by (vm_compute; reflexivity).
  eexists. split; [exact Hl|].
  apply (never_deleted reuse_state) with (i := 117%nat); [|exact Hl].
  unfold reuse_state. apply reachable_default_scan_all.
  - apply reach_timer. unfold first_window_state.
    apply reachable_default_scan_all.
    + apply reach_main.
    + repeat constructor; apply (bool_decide_unpack _); vm_compute; exact I.
  - repeat constructor; apply (bool_decide_unpack _); vm_compute; exact I.
Defined.

(** ** Drops are permanent within a window *)

Lemma full_table_step g r g' mac :
  inv g → wf_report r → scan_cb g r = Some g' →
  occupied_count g = Z.to_nat HASH_SIZE → absent g mac →
  occupied_count g' = Z.to_nat HASH_SIZE ∧ absent g' mac.
Proof.
  intros Hinv Hr Hscan Hfull Habs.
  pose proof Hinv as (Hlen & _).
  destruct (scan_cb_effect g r Hinv Hr)
    as [(_ & _ & Heq)|(k & e0 & n & g2 & Hk & Hp & Hl0 & He0 & _ & Heq)].
  { rewrite Heq in Hscan. injection Hscan as <-. by split. }
  assert (holds (rep_addr r) e0) as Hh0.
  { destruct He0 as [[? _]|[Hfree _]]; [done|]. exfalso.
    apply Hfree, is_occupied_true.
    eapply (filter_length_full is_occupied); [|exact Hl0].
    unfold occupied_count in Hfull. lia. }
  assert (rep_addr r ≠ mac) as Hne.
  { intros <-. by eapply Habs. }
  split.
  - destruct (scan_cb_inv g r Hinv Hr) as (g'' & Hscan' & Hinv').
    assert (g'' = g') as -> by congruence.
    destruct Hinv' as (_ & _ & _ & _ & _ & _ & Hn' & _).
    destruct Hinv as (_ & _ & _ & _ & _ & _ & Hn & _).
    rewrite Heq in Hscan. injection Hscan as Hg'.
    assert (n_mac (buffer_header g') = n_mac (buffer_header g)) as Hsame.
    { rewrite <- Hg'. unfold recorded_state. cbn [buffer_header n_mac].
      destruct Hh0 as [Hs0 _].
      rewrite (proj2 (is_occupied_true e0) Hs0). lia. }
    lia.
  - intros i e Hl Hh. eapply Habs; [|exact Hh].
    by apply (scan_cb_other g r g' mac Hinv Hr Hne Hscan i e Hh).
Qed.

Lemma full_table_run rs mac : ∀ g,
  inv g → Forall wf_report rs →
  occupied_count g = Z.to_nat HASH_SIZE → absent g mac →
  ∃ g', scan_all g rs = Some g' ∧ inv g'
        ∧ occupied_count g' = Z.to_nat HASH_SIZE ∧ absent g' mac.
Proof.
  induction rs as [|r rs IH]; intros g Hinv Hrs Hfull Habs.
  { by exists g. }
  apply Forall_cons_1 in Hrs as [Hr Hrs].
  destruct (scan_cb_inv g r Hinv Hr) as (g1 & Hscan & Hinv1).
  destruct (full_table_step g r g1 mac Hinv Hr Hscan Hfull Habs)
    as [Hfull1 Habs1].
  destruct (IH g1 Hinv1 Hrs Hfull1 Habs1) as (g' & Hall & Hrest).
  exists g'. split; [|done]. cbn [scan_all]. by rewrite Hscan.
Qed.

(** X6. Once the table has refused an identifier, it refuses it for the
    rest of the window: after any further reports [find_or_add_device]
    still returns [NULL] for it and the table still holds [HASH_SIZE]
    records. *)
Theorem refused_until_reset (g : globals) (rs : list adv_report)
    (mac : list Z) :
  reachable g → Forall wf_report rs → length mac = 6%nat →
  find_or_add_device g mac = Some (g, None) →
  ∃ g',
    scan_all g rs = Some g'
    ∧ find_or_add_device g' mac = Some (g', None)
    ∧ n_mac (buffer_header g') = HASH_SIZE.
Proof.
  intros Hg Hrs Hm Hfind. pose proof (reachable_inv g Hg) as Hinv.
  apply (find_full_iff g mac Hinv Hm) in Hfind as [Hfull Habs].
  destruct (full_table_run rs mac g Hinv Hrs Hfull Habs)
    as (g' & Hall & Hinv' & Hfull' & Habs').
  exists g'. split; [done|]. split.
  - by apply (find_full_iff g' mac Hinv' Hm).
  - destruct Hinv' as (_ & _ & _ & _ & _ & _ & -> & _).
    rewrite Hfull'. unfold_consts. lia.
Qed.

Lemma refused_until_reset_witness :
  ∃ g',
    scan_all full_state (fill_reports ++ [extra_report; home_report])
    = Some g'
    ∧ find_or_add_device g' (rep_addr extra_report) = Some (g', None)
    ∧ n_mac (buffer_header g') = HASH_SIZE.
Proof.
  apply (refused_until_reset full_state
           (fill_reports ++ [extra_report; home_report])
           (rep_addr extra_report)).
  - apply reachable_full_state.
  - apply (bool_decide_unpack _). vm_compute. exact I.
  - reflexivity.
  - apply probe_wrap, full_state_passes_over.
Defined.

(** ** The recorded identifiers are the observed ones *)

Lemma elem_recorded_addrs g mac :
  mac ∈ recorded_addrs g
  ↔ ∃ (i : nat) e, hash_table g !! i = Some e ∧ holds mac e.
Proof.
  unfold recorded_addrs, occupied_devices. split.
  - intros Hin.
    apply list_elem_of_fmap in Hin as (d & -> & Hin).
    apply list_elem_of_fmap in Hin as (e & -> & Hin).
    apply list_elem_of_In, occupied_lookup in Hin as (j & Hj & Hs).
    by exists j, e.
  - intros (i & e & Hl & Hs & <-).
    apply list_elem_of_fmap_2, list_elem_of_fmap_2, list_elem_of_In.
    apply filter_In. split.
    + by apply list_elem_of_In, (list_elem_of_lookup_2 _ i).
    + by apply is_occupied_true.
Qed.

Lemma NoDup_recorded_addrs g : inv g → NoDup (recorded_addrs g).
Proof.
  intros (_ & _ & Hch & _). apply NoDup_occupied_addrs.
  intros i j e e' Hi Hj Hs Hs' Ha.
  by eapply (holds_unique g (addr (device e)) i j e e').
Qed.

Lemma length_recorded_addrs g : length (recorded_addrs g) = occupied_count g.
Proof.
  unfold recorded_addrs. by rewrite length_fmap, length_occupied_devices.
Qed.

Lemma absent_not_recorded g mac : absent g mac ↔ mac ∉ recorded_addrs g.
Proof.
  rewrite elem_recorded_addrs. split.
  - intros Habs (i & e & Hl & Hh). by eapply Habs.
  - intros Hn i e Hl Hh. apply Hn. by exists i, e.
Qed.

Lemma seen_app rs rs' : seen (rs ++ rs') = seen rs ++ seen rs'.
Proof. apply fmap_app. Qed.

(** A duplicate-free list of addresses that were all seen is no longer
    than the number of distinct addresses seen. *)
Lemma distinct_count_ge (l : list (list Z)) rs :
  NoDup l → (∀ x, x ∈ l → x ∈ seen rs) → (length l <= distinct_count rs)%nat.
Proof.
  intros Hnd Hsub. apply submseteq_length, NoDup_submseteq; [done|].
  intros x Hx. apply elem_of_remove_dups. auto.
Qed.

Lemma distinct_count_eq (l : list (list Z)) rs :
  NoDup l → (∀ x, x ∈ l ↔ x ∈ seen rs) → length l = distinct_count rs.
Proof.
  intros Hnd Hiff. apply Permutation_length, NoDup_Permutation; [done| |].
  - apply NoDup_remove_dups.
  - intros x. rewrite elem_of_remove_dups. apply Hiff.
Qed.

Lemma distinct_count_mono rs rs' :
  (∀ x, x ∈ seen rs → x ∈ seen rs') →
  (distinct_count rs <= distinct_count rs')%nat.
Proof.
  intros Hsub. apply distinct_count_ge; [apply NoDup_remove_dups|].
  intros x Hx. apply Hsub. by apply elem_of_remove_dups.
Qed.

Lemma distinct_count_prefix pre r rs :
  (distinct_count (pre ++ [r]) <= distinct_count (pre ++ r :: rs))%nat.
Proof.
  apply distinct_count_mono. intros x. rewrite !seen_app.
  rewrite !elem_of_app. cbn [seen fmap list_fmap].
  rewrite list_elem_of_singleton, elem_of_cons. tauto.
Qed.

Lemma distinct_count_snoc_old pre r :
  rep_addr r ∈ seen pre → distinct_count (pre ++ [r]) = distinct_count pre.
Proof.
  intros Hin. symmetry. apply distinct_count_eq; [apply NoDup_remove_dups|].
  intros x. rewrite elem_of_remove_dups, seen_app, elem_of_app.
  cbn [seen fmap list_fmap]. rewrite list_elem_of_singleton.
  split; [tauto|]. intros [?| ->]; done.
Qed.

Lemma distinct_count_snoc_new pre r :
  rep_addr r ∉ seen pre →
  distinct_count (pre ++ [r]) = S (distinct_count pre).
Proof.
  intros Hnew. symmetry.
  apply (distinct_count_eq (rep_addr r :: remove_dups (seen pre))).
  - apply NoDup_cons_2; [|apply NoDup_remove_dups].
    by rewrite elem_of_remove_dups.
  - intros x. rewrite elem_of_cons, elem_of_remove_dups, seen_app, elem_of_app.
    cbn [seen fmap list_fmap]. rewrite list_elem_of_singleton. tauto.
Qed.

Lemma wrap_full_absent g mac :
  length (hash_table g) = Z.to_nat HASH_SIZE →
  passes_over g mac (Z.to_nat HASH_SIZE) →
  occupied_count g = Z.to_nat HASH_SIZE ∧ absent g mac.
Proof.
  intros Hlen Hp. split.
  - unfold occupied_count. rewrite <- Hlen. apply filter_length_all.
    intros i e Hl. apply is_occupied_true.
    by destruct (passes_over_all g mac i e Hlen Hp Hl).
  - intros i e Hl Hh. by eapply holds_not_other, passes_over_all.
Qed.

(** While the distinct addresses fit in the table, no report is dropped. *)
Lemma agrees_not_dropped g pre r :
  inv g → agrees g pre → wf_report r →
  (distinct_count (pre ++ [r]) <= Z.to_nat HASH_SIZE)%nat →
  ∃ (k : nat) e n g2,
    (k < Z.to_nat HASH_SIZE)%nat
    ∧ passes_over g (rep_addr r) k
    ∧ hash_table g !! Z.to_nat (slot (hash_mac (rep_addr r)) k) = Some e
    ∧ (holds (rep_addr r) e ∧ n = n_adv (device e)
       ∨ state e ≠ ENTRY_OCCUPIED ∧ n = 0)
    ∧ find_or_add_device
        (set_n_adv_raw g (u16 (n_adv_raw (buffer_header g) + 1)))
        (rep_addr r)
      = Some (g2, Some (slot (hash_mac (rep_addr r)) k))
    ∧ scan_cb g r
      = Some (recorded_state g r
                (Z.to_nat (slot (hash_mac (rep_addr r)) k)) e n).
Proof.
  intros Hinv Hagr Hr Hfit. pose proof Hinv as (Hlen & _).
  destruct (scan_cb_effect g r Hinv Hr)
    as [(_ & Hp & _)|(k & e & n & g2 & Hrec)];
    [|by exists k, e, n, g2].
  exfalso. destruct (wrap_full_absent g _ Hlen Hp) as [Hfull Habs].
  apply absent_not_recorded in Habs.
  assert (length (rep_addr r :: recorded_addrs g)
          <= distinct_count (pre ++ [r]))%nat as Hle.
  { apply distinct_count_ge.
    - apply NoDup_cons_2; [done|by apply NoDup_recorded_addrs].
    - intros x. rewrite elem_of_cons, seen_app, elem_of_app.
      cbn [seen fmap list_fmap]. rewrite list_elem_of_singleton.
      intros [->|Hx]; [by right|]. left. by apply Hagr. }
  cbn [length] in Hle. rewrite length_recorded_addrs in Hle. lia.
Qed.

Lemma recorded_state_addrs g r (k : nat) e n mac :
  hash_table g !! Z.to_nat (slot (hash_mac (rep_addr r)) k) = Some e →
  holds (rep_addr r) e ∨ state e ≠ ENTRY_OCCUPIED →
  mac ∈ recorded_addrs
          (recorded_state g r (Z.to_nat (slot (hash_mac (rep_addr r)) k)) e n)
  ↔ mac = rep_addr r ∨ mac ∈ recorded_addrs g.
Proof.
  intros Hl He. pose proof (lookup_lt_Some _ _ _ Hl) as Hi0.
  set (i0 := Z.to_nat (slot (hash_mac (rep_addr r)) k)) in *.
  rewrite !elem_recorded_addrs. unfold recorded_state. cbn [hash_table].
  split.
  - intros (i & e' & Hl' & Hh'). destruct (decide (i = i0)) as [->|Hne].
    + rewrite list_lookup_insert_eq in Hl' by done. injection Hl' as <-.
      left. by destruct Hh' as [_ <-].
    + rewrite list_lookup_insert_ne in Hl' by done. right. by exists i, e'.
  - intros [->|(i & e' & Hl' & Hh')].
    + exists i0. eexists. split; [by apply list_lookup_insert_eq|]. by split.
    + destruct (decide (i = i0)) as [->|Hne].
      * assert (e' = e) as -> by congruence.
        destruct He as [[_ Ha]|Hfree]; [|by destruct Hh'].
        destruct Hh' as [_ <-]. rewrite Ha.
        exists i0. eexists. split; [by apply list_lookup_insert_eq|].
        by split.
      * exists i, e'. split; [|done]. by rewrite list_lookup_insert_ne.
Qed.

Lemma distinct_count_snoc_le pre r :
  (distinct_count pre <= distinct_count (pre ++ [r])
   ∧ distinct_count (pre ++ [r]) <= S (distinct_count pre))%nat.
Proof.
  destruct (decide (rep_addr r ∈ seen pre)) as [Hin|Hnew].
  - rewrite (distinct_count_snoc_old pre r Hin). lia.
  - rewrite (distinct_count_snoc_new pre r Hnew). lia.
Qed.

Lemma occupied_count_le g :
  length (hash_table g) = Z.to_nat HASH_SIZE →
  (occupied_count g <= Z.to_nat HASH_SIZE)%nat.
Proof.
  intros <-. apply filter_length_le.
Qed.

Lemma tracks_step g pre r :
  tracks g pre → wf_report r →
  ∃ g',
    scan_cb g r = Some g'
    ∧ tracks g' (pre ++ [r])
    ∧ ((distinct_count (pre ++ [r]) <= Z.to_nat HASH_SIZE)%nat →
       ∃ g2 index,
         find_or_add_device
           (set_n_adv_raw g (u16 (n_adv_raw (buffer_header g) + 1)))
           (rep_addr r)
         = Some (g2, Some index)).
Proof.
  intros (Hinv & Hcount & Hagr) Hr.
  pose proof (distinct_count_snoc_le pre r) as [Hlo Hhi].
  destruct (decide (distinct_count (pre ++ [r]) <= Z.to_nat HASH_SIZE)%nat)
    as [Hfit|Hover].
  - specialize (Hagr ltac:(lia)).
    destruct (agrees_not_dropped g pre r Hinv Hagr Hr Hfit)
      as (k & e & n & g2 & Hk & Hp & Hl & He & Hfind & Hscan).
    assert (holds (rep_addr r) e ∨ state e ≠ ENTRY_OCCUPIED) as He'
      by (destruct He as [[? _]|[? _]]; auto).
    eexists. split; [exact Hscan|].
    pose proof (inv_recorded_state g r k e n Hinv Hr Hk Hp Hl He') as Hinv'.
    assert (agrees (recorded_state g r
                      (Z.to_nat (slot (hash_mac (rep_addr r)) k)) e n)
              (pre ++ [r])) as Hagr'.
    { intros mac. rewrite recorded_state_addrs by done.
      rewrite seen_app, elem_of_app. cbn [seen fmap list_fmap].
      rewrite list_elem_of_singleton, (Hagr mac). tauto. }
    split; [|by intros _; exists g2, (slot (hash_mac (rep_addr r)) k)].
    split; [done|]. split; [|done].
    rewrite <- length_recorded_addrs.
    rewrite (distinct_count_eq _ (pre ++ [r]));
      [lia|by apply NoDup_recorded_addrs|exact Hagr'].
  - destruct (scan_cb_inv g r Hinv Hr) as (g' & Hscan & Hinv').
    exists g'. split; [done|]. split; [|lia].
    split; [done|]. split; [|lia].
    pose proof (scan_cb_count_mono g r g' Hinv Hr Hscan) as Hmono.
    pose proof Hinv as (_ & _ & _ & _ & _ & _ & Hn & _).
    pose proof Hinv' as (Hlen' & _ & _ & _ & _ & _ & Hn' & _).
    pose proof (occupied_count_le g' Hlen'). lia.
Qed.

Lemma tracks_run rs : ∀ g pre,
  tracks g pre → Forall wf_report rs →
  ∃ g',
    scan_all g rs = Some g'
    ∧ tracks g' (pre ++ rs)
    ∧ ((distinct_count (pre ++ rs) <= Z.to_nat HASH_SIZE)%nat →
       ∀ mac, never_full g rs mac = true).
Proof.
  induction rs as [|r rs IH]; intros g pre Htr Hrs.
  { exists g. rewrite app_nil_r. by split_and!. }
  apply Forall_cons_1 in Hrs as [Hr Hrs].
  destruct (tracks_step g pre r Htr Hr) as (g1 & Hscan & Htr1 & Hfind).
  destruct (IH g1 (pre ++ [r]) Htr1 Hrs) as (g' & Hall & Htr' & Hnf).
  rewrite <- app_assoc in Htr', Hnf. cbn [app] in Htr', Hnf.
  exists g'. split; [cbn [scan_all]; by rewrite Hscan|]. split; [done|].
  intros Hfit mac. cbn [never_full]. rewrite Hscan, (Hnf Hfit mac).
  rewrite andb_true_r. destruct (bool_decide (rep_addr r = mac)) eqn:Hm;
    [|done].
  apply bool_decide_eq_true_1 in Hm. subst mac.
  destruct Hfind as (g2 & index & ->); [|done].
  pose proof (distinct_count_prefix pre r rs). lia.
Qed.

Lemma tracks_start g : window_start g → tracks g [].
Proof.
  intros Hs. pose proof (reachable_inv g (window_start_reachable g Hs)) as Hinv.
  assert (recorded_addrs g = []) as Hnil.
  { unfold recorded_addrs, occupied_devices.
    destruct (window_start_empty g Hs) as [-> _].
    by rewrite (filter_replicate_false is_occupied zero_entry). }
  split; [done|]. split.
  - by rewrite <- length_recorded_addrs, Hnil.
  - intros _ mac. by rewrite Hnil.
Qed.

(** X7. Deduplication.  If the reports of a window carry at most
    [HASH_SIZE] distinct identifiers, none of them is dropped, the
    identifiers stored in the occupied slots are exactly the identifiers
    reported, and [n_mac] is their number, whatever their order, their
    repetitions and their hash collisions. *)
Theorem deduplication (g0 : globals) (rs : list adv_report) :
  window_start g0 → Forall wf_report rs →
  (distinct_count rs <= Z.to_nat HASH_SIZE)%nat →
  ∃ g,
    scan_all g0 rs = Some g
    ∧ (∀ mac, mac ∈ recorded_addrs g ↔ mac ∈ seen rs)
    ∧ NoDup (recorded_addrs g)
    ∧ n_mac (buffer_header g) = Z.of_nat (distinct_count rs)
    ∧ ∀ mac, never_full g0 rs mac = true.
Proof.
  intros Hs Hrs Hfit.
  destruct (tracks_run rs g0 [] (tracks_start g0 Hs) Hrs)
    as (g & Hall & (Hinv & Hcount & Hagr) & Hnf).
  cbn [app] in *. exists g. split; [done|].
  split; [by apply Hagr|]. split; [by apply NoDup_recorded_addrs|].
  split; [|by apply Hnf].
  destruct Hinv as (_ & _ & _ & _ & _ & _ & -> & _). lia.
Qed.

Lemma wf_five_reports : Forall wf_report five_reports_list.
Proof. apply (bool_decide_unpack _). vm_compute. exact I. Qed.

Lemma deduplication_witness :
  ∃ g,
    scan_all main_init five_reports_list = Some g
    ∧ (∀ mac, mac ∈ recorded_addrs g ↔ mac ∈ seen five_reports_list)
    ∧ NoDup (recorded_addrs g)
    ∧ n_mac (buffer_header g) = Z.of_nat (distinct_count five_reports_list)
    ∧ ∀ mac, never_full main_init five_reports_list mac = true.
Proof.
  apply (deduplication main_init five_reports_list).
  - apply start_main.
  - apply (bool_decide_unpack _). vm_compute. exact I.
  - vm_compute. lia.
Defined.

(** X8. Capacity.  After the reports of a window, [n_mac] is the number
    of distinct identifiers reported, or [HASH_SIZE] if there were more:
    the table takes [HASH_SIZE] identifiers whatever their hashes, and no
    more. *)
Theorem unique_count_capped (g0 : globals) (rs : list adv_report) :
  window_start g0 → Forall wf_report rs →
  ∃ g,
    scan_all g0 rs = Some g
    ∧ n_mac (buffer_header g)
      = Z.min (Z.of_nat (distinct_count rs)) HASH_SIZE.
Proof.
  intros Hs Hrs.
  destruct (tracks_run rs g0 [] (tracks_start g0 Hs) Hrs)
    as (g & Hall & (Hinv & Hcount & _) & _).
  cbn [app] in *. exists g. split; [done|].
  destruct Hinv as (_ & _ & _ & _ & _ & _ & -> & _).
  rewrite Hcount. unfold_consts. lia.
Qed.

(** 1025 distinct identifiers: 1024 are recorded. *)
Example one_too_many :
  distinct_count (fill_reports ++ [extra_report]) = 1025%nat
  ∧ (λ g, n_mac (buffer_header g))
      <$> scan_all main_init (fill_reports ++ [extra_report])
    = Some 1024.
Proof. split; vm_compute; reflexivity. Qed.

Lemma unique_count_capped_witness :
  ∃ g,
    scan_all main_init (fill_reports ++ [extra_report]) = Some g
    ∧ n_mac (buffer_header g)
      = Z.min (Z.of_nat (distinct_count (fill_reports ++ [extra_report])))
          HASH_SIZE.
Proof.
  apply (unique_count_capped main_init (fill_reports ++ [extra_report])).
  - apply start_main.
  - apply (bool_decide_unpack _). vm_compute. exact I.
Defined.

(** ** Counters and reports *)

Lemma adv_total_weights g :
  adv_total g = foldr (λ e acc, adv_weight e + acc) 0 (hash_table g).
Proof.
  unfold adv_total, occupied_devices, adv_weight.
  induction (hash_table g) as [|e l IH]; [done|].
  cbn [List.filter foldr]. destruct (is_occupied e); cbn; rewrite IH; lia.
Qed.

Lemma weights_insert (l : list hash_entry) : ∀ (i : nat) x y,
  l !! i = Some y →
  foldr (λ e acc, adv_weight e + acc) 0 (<[i:=x]> l) + adv_weight y
  = foldr (λ e acc, adv_weight e + acc) 0 l + adv_weight x.
Proof.
  induction l as [|a l IH]; intros i x y Hl; [done|].
  destruct i as [|i]; cbn in Hl.
  - injection Hl as ->. cbn. lia.
  - specialize (IH i x y Hl). cbn [foldr].
    change (<[S i:=x]> (a :: l)) with (a :: <[i:=x]> l). cbn [foldr]. lia.
Qed.

Lemma reports_of_app mac rs rs' :
  reports_of mac (rs ++ rs') = reports_of mac rs ++ reports_of mac rs'.
Proof.
  unfold reports_of. induction rs as [|r rs IH]; [done|].
  cbn [app List.filter]. rewrite IH.
  by destruct (bool_decide (rep_addr r = mac)).
Qed.

Lemma reports_of_unseen mac rs : mac ∉ seen rs → reports_of mac rs = [].
Proof.
  unfold reports_of, seen. induction rs as [|r rs IH]; [done|].
  cbn [fmap list_fmap List.filter]. rewrite not_elem_of_cons. intros [Hne Hin].
  rewrite bool_decide_eq_false_2 by done. auto.
Qed.

Lemma reports_of_single mac r :
  reports_of mac [r] = if bool_decide (rep_addr r = mac) then [r] else [].
Proof. reflexivity. Qed.

Lemma counts_exactly_step g pre r :
  counts_exactly g pre → wf_report r →
  (distinct_count (pre ++ [r]) <= Z.to_nat HASH_SIZE)%nat →
  (length (reports_of (rep_addr r) (pre ++ [r])) <= 255)%nat →
  ∃ g', scan_cb g r = Some g' ∧ counts_exactly g' (pre ++ [r]).
Proof.
  intros (Hinv & Hagr & Hcnt & Htot) Hr Hfit Hsmall.
  pose proof Hinv as (_ & _ & Hch & _).
  destruct (agrees_not_dropped g pre r Hinv Hagr Hr Hfit)
    as (k & e & n & g2 & Hk & Hp & Hl & He & _ & Hscan).
  assert (holds (rep_addr r) e ∨ state e ≠ ENTRY_OCCUPIED) as He'
    by (destruct He as [[? _]|[? _]]; auto).
  set (i0 := Z.to_nat (slot (hash_mac (rep_addr r)) k)) in *.
  pose proof (lookup_lt_Some _ _ _ Hl) as Hi0.
  assert (n = Z.of_nat (length (reports_of (rep_addr r) pre))
          ∧ adv_weight e = n) as [Hn Hw].
  { destruct He as [[[Hs Ha] ->]|[Hfree ->]].
    - split.
      + rewrite (Hcnt i0 e Hl Hs). by rewrite Ha.
      + unfold adv_weight. by rewrite (proj2 (is_occupied_true e) Hs).
    - split.
      + rewrite reports_of_unseen; [done|].
        rewrite <- (Hagr (rep_addr r)). apply absent_not_recorded.
        by eapply free_stop_absent.
      + unfold adv_weight. by rewrite (proj2 (is_occupied_false e) Hfree). }
  rewrite reports_of_app, reports_of_single, bool_decide_eq_true_2 in Hsmall
    by done.
  rewrite length_app in Hsmall. cbn [length] in Hsmall.
  assert (u8 (n + 1) = n + 1) as Hu8 by (apply u8_small; lia).
  exists (recorded_state g r i0 e n). split; [done|].
  split; [unfold i0; by apply inv_recorded_state|]. split.
  { intros mac. unfold i0. rewrite recorded_state_addrs by done.
    rewrite seen_app, elem_of_app. cbn [seen fmap list_fmap].
    rewrite list_elem_of_singleton, (Hagr mac). tauto. }
  split.
  - intros i e' Hl' Hs'. unfold recorded_state in Hl'. cbn [hash_table] in Hl'.
    rewrite reports_of_app, reports_of_single, length_app.
    destruct (decide (i = i0)) as [->|Hne].
    + rewrite list_lookup_insert_eq in Hl' by done. injection Hl' as <-.
      cbn [device recorded n_adv addr].
      rewrite bool_decide_eq_true_2 by done. cbn [length]. lia.
    + rewrite list_lookup_insert_ne in Hl' by done.
      rewrite bool_decide_eq_false_2.
      { cbn [length]. rewrite (Hcnt i e' Hl' Hs'). lia. }
      intros Heq. destruct He as [[Hh _]|[Hfree _]].
      * apply Hne. symmetry.
        by eapply (holds_unique g (rep_addr r) i0 i e e').
      * by eapply (free_stop_absent g (rep_addr r) k e Hch Hp Hl Hfree i e').
  - rewrite adv_total_weights. unfold recorded_state. cbn [hash_table].
    set (e1 := mk_hash_entry ENTRY_OCCUPIED
                 (recorded (rep_addr r) r (u8 (n + 1)))).
    pose proof (weights_insert (hash_table g) i0 e1 e Hl) as Hins.
    assert (adv_weight e1 = u8 (n + 1)) as Hw1 by reflexivity.
    rewrite <- adv_total_weights in Hins. rewrite Hw1, Hw, Hu8 in Hins.
    rewrite length_app. cbn [length]. lia.
Qed.

Lemma counts_exactly_run rs : ∀ g pre,
  counts_exactly g pre → Forall wf_report rs →
  (distinct_count (pre ++ rs) <= Z.to_nat HASH_SIZE)%nat →
  (∀ mac, length (reports_of mac (pre ++ rs)) <= 255)%nat →
  ∃ g', scan_all g rs = Some g' ∧ counts_exactly g' (pre ++ rs).
Proof.
  induction rs as [|r rs IH]; intros g pre Hc Hrs Hfit Hsmall.
  { exists g. by rewrite app_nil_r. }
  apply Forall_cons_1 in Hrs as [Hr Hrs].
  destruct (counts_exactly_step g pre r Hc Hr) as (g1 & Hscan & Hc1).
  { pose proof (distinct_count_prefix pre r rs). lia. }
  { specialize (Hsmall (rep_addr r)).
    replace (pre ++ r :: rs) with ((pre ++ [r]) ++ rs) in Hsmall
      by (by rewrite <- app_assoc).
    rewrite (reports_of_app _ (pre ++ [r])), length_app in Hsmall. lia. }
  destruct (IH g1 (pre ++ [r]) Hc1 Hrs) as (g' & Hall & Hc').
  { by rewrite <- app_assoc. }
  { intros mac. rewrite <- app_assoc. apply Hsmall. }
  rewrite <- app_assoc in Hc'. exists g'. split; [|done].
  cbn [scan_all]. by rewrite Hscan.
Qed.

Lemma counts_exactly_start g : window_start g → counts_exactly g [].
Proof.
  intros Hs. destruct (tracks_start g Hs) as (Hinv & _ & Hagr).
  destruct (window_start_empty g Hs) as [Ht _].
  split; [done|]. split; [apply Hagr; cbn; lia|]. split.
  - intros i e Hl Ho. rewrite Ht in Hl.
    apply lookup_replicate_1 in Hl as [-> _]. done.
  - unfold adv_total, occupied_devices. rewrite Ht.
    by rewrite (filter_replicate_false is_occupied zero_entry).
Qed.

(** X9. Counting.  If the reports of a window carry at most [HASH_SIZE]
    distinct identifiers and no identifier is reported more than 255
    times, then each record's [n_adv] is exactly the number of reports of
    its identifier, the counters of the records add up to the number of
    reports, and [n_adv_raw] is that sum modulo [2^16]. *)
Theorem counters_add_up (g0 : globals) (rs : list adv_report) :
  window_start g0 → Forall wf_report rs →
  (distinct_count rs <= Z.to_nat HASH_SIZE)%nat →
  (∀ mac, length (reports_of mac rs) <= 255)%nat →
  ∃ g,
    scan_all g0 rs = Some g
    ∧ (∀ (i : nat) e, hash_table g !! i = Some e →
         state e = ENTRY_OCCUPIED →
         n_adv (device e)
         = Z.of_nat (length (reports_of (addr (device e)) rs)))
    ∧ adv_total g = Z.of_nat (length rs)
    ∧ n_adv_raw (buffer_header g) = adv_total g mod 2 ^ 16.
Proof.
  intros Hs Hrs Hfit Hsmall.
  destruct (counts_exactly_run rs g0 [] (counts_exactly_start g0 Hs) Hrs
              Hfit Hsmall) as (g & Hall & (Hinv & _ & Hcnt & Htot)).
  cbn [app] in *. exists g. split; [done|]. split; [done|]. split; [done|].
  pose proof (reachable_inv g0 (window_start_reachable g0 Hs)) as Hinv0.
  rewrite (scan_all_raw_count rs g0 g Hinv0 Hrs Hall).
  destruct (window_start_empty g0 Hs) as [_ ->].
  by rewrite Z.add_0_l, Htot.
Qed.

Lemma counters_add_up_witness :
  ∃ g,
    scan_all main_init five_reports_list = Some g
    ∧ (∀ (i : nat) e, hash_table g !! i = Some e →
         state e = ENTRY_OCCUPIED →
         n_adv (device e)
         = Z.of_nat (length (reports_of (addr (device e)) five_reports_list)))
    ∧ adv_total g = Z.of_nat (length five_reports_list)
    ∧ n_adv_raw (buffer_header g) = adv_total g mod 2 ^ 16.
Proof.
  apply (counters_add_up main_init five_reports_list).
  - apply start_main.
  - apply (bool_decide_unpack _). vm_compute. exact I.
  - vm_compute. lia.
  - intros mac. unfold reports_of.
    pose proof (filter_length_le (λ r, bool_decide (rep_addr r = mac))
                  five_reports_list) as Hle.
    cbn [length five_reports_list] in Hle. lia.
Defined.

(** ** Windows are independent *)

Lemma window_start_fresh g :
  window_start g →
  g = fresh_window (sequence (buffer_header g))
  ∧ is_u8 (sequence (buffer_header g)).
Proof.
  destruct 1 as [|bo g Hg].
  - split; [reflexivity|]. unfold is_u8. cbn. lia.
  - split; [reflexivity|].
    destruct (reachable_inv g Hg) as (_ & _ & _ & _ & _ & _ & _ & _ & Hm & _).
    cbn [sampling_timer_handler snd set_buffer_active reset_buffer
         buffer_header sequence msg_sequence].
    rewrite Hm. apply u8_range.
Qed.

(** X10. Windows are independent.  Over consecutive windows, the frame
    of each window is the frame that its own reports give from an empty
    table with its sequence number: nothing else is carried from one
    window to the next. *)
Theorem windows_independent (bo : byte_order) (ws : list (list adv_report)) :
  ∀ g : globals,
  window_start g → Forall (Forall wf_report) ws →
  ∃ frames g',
    run_windows bo g ws = Some (frames, g')
    ∧ window_start g'
    ∧ length frames = length ws
    ∧ ∀ (k : nat) w, ws !! k = Some w →
        ∃ f, frames !! k = Some f
             ∧ window_frame bo
                 ((sequence (buffer_header g) + Z.of_nat k) mod 256) w
               = Some f.
Proof.
  induction ws as [|w ws IH]; intros g Hs Hws.
  { exists [], g. by split_and!. }
  apply Forall_cons_1 in Hws as [Hw Hws].
  pose proof (window_start_reachable g Hs) as Hg.
  pose proof (reachable_inv g Hg) as Hinv.
  destruct (window_start_fresh g Hs) as [Hfresh Hu8].
  destruct (scan_all_inv w g Hinv Hw) as (g1 & Hall & Hinv1).
  pose proof (reachable_scan_all w g g1 Hg Hw Hall) as Hg1.
  pose proof (scan_all_sequence w g g1 Hinv Hw Hall) as Hseq1.
  pose proof (start_timer bo g1 Hg1) as Hs2.
  destruct (IH _ Hs2 Hws) as (frames & g' & Hrun & Hs' & Hlen & Hframes).
  remember (sampling_timer_handler bo g1).1 as f1 eqn:Ef1.
  exists (f1 :: frames), g'. split_and!.
  - cbn [run_windows]. rewrite Hall. cbn [mbind option_bind].
    rewrite Hrun. cbn [mbind option_bind fst snd]. by rewrite Ef1.
  - done.
  - cbn [length]. by rewrite Hlen.
  - intros k w' Hk. destruct k as [|k].
    + injection Hk as <-. exists f1. split; [done|].
      rewrite Z.add_0_r, Z.mod_small by done.
      unfold window_frame. rewrite <- Hfresh, Hall. cbn [mbind option_bind].
      by rewrite Ef1.
    + destruct (Hframes k w' Hk) as (f & Hf & Hwf). exists f. split; [done|].
      rewrite <- Hwf. f_equal.
      rewrite timer_sequence, Hseq1 by done.
      rewrite Zplus_mod_idemp_l. f_equal. lia.
Qed.

Lemma windows_independent_witness :
  ∃ frames g',
    run_windows LittleEndian main_init
      [[long_report; short_report]; []; [extra_report]]
    = Some (frames, g')
    ∧ window_start g'
    ∧ length frames = 3%nat
    ∧ ∀ (k : nat) w,
        [[long_report; short_report]; []; [extra_report]] !! k = Some w →
        ∃ f, frames !! k = Some f
             ∧ window_frame LittleEndian
                 ((sequence (buffer_header main_init) + Z.of_nat k) mod 256) w
               = Some f.
Proof.
  apply (windows_independent LittleEndian
           [[long_report; short_report]; []; [extra_report]] main_init).
  - apply start_main.
  - repeat constructor; apply (bool_decide_unpack _); vm_compute; exact I.
Defined.

(** ** The frame of a window without reports *)

Lemma flat_map_replicate_nil {A B} (f : A → list B) (x : A) (n : nat) :
  f x = [] → flat_map f (replicate n x) = [].
Proof. intros Hf. induction n as [|n IH]; cbn; [done|]. by rewrite Hf, IH. Qed.

(** X11. A window in which no report arrived is still reported: its
    frame is the nine-byte header alone, with its sequence number and both
    counts at zero, in either byte order. *)
Theorem empty_window_frame (bo : byte_order) (g : globals) :
  window_start g →
  (sampling_timer_handler bo g).1
  = [85; 85; 85; 85; sequence (buffer_header g); 0; 0; 0; 0].
Proof.
  intros Hs. destruct (window_start_fresh g Hs) as [-> _].
  rewrite timer_frame. unfold send_buffer, fresh_window.
  cbn [hash_table buffer_header sequence].
  rewrite take_replicate, flat_map_replicate_nil by done.
  by destruct bo.
Qed.

Lemma empty_window_frame_witness :
  (sampling_timer_handler BigEndian second_window_start).1
  = [85; 85; 85; 85; sequence (buffer_header second_window_start); 0; 0; 0; 0].
Proof.
  apply (empty_window_frame BigEndian second_window_start).
  unfold second_window_start. apply start_timer.
  unfold first_window_state. apply reachable_default_scan_all.
  - apply reach_main.
  - repeat constructor; apply (bool_decide_unpack _); vm_compute; exact I.
Defined.

(** ** The byte stream can be cut back into frames *)

Lemma framed_shape bo f :
  framed bo f →
  ∃ h, length f = (9 + 42 * Z.to_nat (n_mac h))%nat
       ∧ ∀ rest, decode_header bo (take 9 (f ++ rest)) = Some h.
Proof.
  intros (g & Hinv & ->). exists (buffer_header g).
  pose proof (length_buffer_header_bytes bo g Hinv) as Hlen.
  rewrite send_buffer_frame by done. split.
  - rewrite length_app, Hlen.
    rewrite length_concat_devices by (by apply wf_occupied_devices).
    rewrite length_occupied_devices.
    destruct Hinv as (_ & _ & _ & _ & _ & _ & -> & _).
    rewrite Nat2Z.id. reflexivity.
  - intros rest. rewrite <- app_assoc.
    rewrite take_app_length' by done. by apply decode_header_bytes.
Qed.

Lemma split_frames_concat bo fs : ∀ fuel,
  Forall (framed bo) fs → (length fs <= fuel)%nat →
  split_frames fuel bo (concat fs) = Some fs.
Proof.
  induction fs as [|f fs IH]; intros fuel Hfs Hfuel.
  { by destruct fuel. }
  apply Forall_cons_1 in Hfs as [Hf Hfs].
  destruct (framed_shape bo f Hf) as (h & Hlen & Hdec).
  cbn [concat]. destruct fuel as [|fuel]; [cbn in Hfuel; lia|].
  cbn [split_frames].
  rewrite bool_decide_eq_false_2.
  2: { intros Hnil. apply (f_equal length) in Hnil.
       rewrite length_app in Hnil. cbn in Hnil. lia. }
  rewrite Hdec. cbn [mbind option_bind]. cbv zeta.
  rewrite bool_decide_eq_true_2 by (rewrite length_app; lia).
  rewrite <- Hlen, drop_app_length, take_app_length.
  rewrite IH by (try done; cbn in Hfuel; lia). reflexivity.
Qed.

Lemma run_windows_framed bo ws : ∀ g frames g',
  inv g → Forall (Forall wf_report) ws →
  run_windows bo g ws = Some (frames, g') →
  Forall (framed bo) frames ∧ length frames = length ws.
Proof.
  induction ws as [|w ws IH]; intros g frames g' Hinv Hws Hrun.
  { cbn in Hrun. injection Hrun as <- <-. split; [apply Forall_nil_2|done]. }
  apply Forall_cons_1 in Hws as [Hw Hws]. cbn [run_windows] in Hrun.
  destruct (scan_all_inv w g Hinv Hw) as (g1 & Hall & Hinv1).
  rewrite Hall in Hrun. cbn [mbind option_bind] in Hrun.
  destruct (run_windows bo (sampling_timer_handler bo g1).2 ws)
    as [[frames1 g1']|] eqn:Hrest; [|done].
  cbn [mbind option_bind fst snd] in Hrun. injection Hrun as <- <-.
  destruct (IH _ _ _ (inv_after_timer bo g1 Hinv1) Hws Hrest) as [Hfr Hlen].
  split; [|by cbn; rewrite Hlen].
  apply Forall_cons_2; [|done]. exists g1. by split.
Qed.

(** X12. The byte stream is self-delimiting.  The bytes written to the
    UART over any number of windows, read from the start of a frame, are
    cut back into exactly the frames that were written, using only the
    unique count of each header. *)
Theorem stream_splits (bo : byte_order) (ws : list (list adv_report))
    (g : globals) :
  reachable g → Forall (Forall wf_report) ws →
  ∃ frames g',
    run_windows bo g ws = Some (frames, g')
    ∧ split_frames (length ws) bo (concat frames) = Some frames.
Proof.
  intros Hg Hws. pose proof (reachable_inv g Hg) as Hinv.
  assert (∃ frames g', run_windows bo g ws = Some (frames, g'))
    as (frames & g' & Hrun).
  { clear Hg. revert g Hinv. induction ws as [|w ws IH]; intros g Hinv.
    { by exists [], g. }
    apply Forall_cons_1 in Hws as [Hw Hws].
    destruct (scan_all_inv w g Hinv Hw) as (g1 & Hall & Hinv1).
    destruct (IH Hws _ (inv_after_timer bo g1 Hinv1)) as (fr & g2 & Hrun).
    eexists _, _. cbn [run_windows]. rewrite Hall. cbn [mbind option_bind].
    rewrite Hrun. reflexivity. }
  exists frames, g'. split; [done|].
  destruct (run_windows_framed bo ws g frames g' Hinv Hws Hrun) as [Hfr Hlen].
  apply split_frames_concat; [done|lia].
Qed.

Lemma stream_splits_witness :
  ∃ frames g',
    run_windows BigEndian full_state
      [[long_report; short_report]; []; five_reports_list]
    = Some (frames, g')
    ∧ split_frames 3 BigEndian (concat frames) = Some frames.
Proof.
  apply (stream_splits BigEndian
           [[long_report; short_report]; []; five_reports_list] full_state).
  - apply reachable_full_state.
  - repeat constructor; apply (bool_decide_unpack _); vm_compute; exact I.
Defined.

(** ** Neighbouring addresses *)

Lemma hash_mac_poly b0 b1 b2 b3 b4 b5 :
  hash_mac [b0; b1; b2; b3; b4; b5]
  = (((((b0 * 33 + b1) * 33 + b2) * 33 + b3) * 33 + b4) * 33 + b5)
    mod HASH_SIZE.
Proof.
  unfold hash_mac. cbn [take]. rewrite land_hash_mask.
  rewrite <- u32_mod_hash_size.
  rewrite (fold_hash_step_horner _ 0 0 eq_refl). cbn [fold_left].
  rewrite Z.mul_0_l, Z.add_0_l. apply u32_mod_hash_size.
Qed.

(** X13. Two identifiers that differ only in their last byte have home
    slots that differ by the same amount, modulo [HASH_SIZE]; since bytes
    differ by less than [HASH_SIZE], such identifiers never share a home
    slot. *)
Theorem hash_mac_last_byte (b0 b1 b2 b3 b4 x y : Z) :
  is_u8 x → is_u8 y →
  hash_mac [b0; b1; b2; b3; b4; y]
  = (hash_mac [b0; b1; b2; b3; b4; x] + (y - x)) mod HASH_SIZE
  ∧ (hash_mac [b0; b1; b2; b3; b4; x] = hash_mac [b0; b1; b2; b3; b4; y]
     ↔ x = y).
Proof.
  intros Hx Hy. rewrite !hash_mac_poly.
  set (p := ((((b0 * 33 + b1) * 33 + b2) * 33 + b3) * 33 + b4) * 33).
  assert ((p + y) mod HASH_SIZE = ((p + x) mod HASH_SIZE + (y - x)) mod HASH_SIZE)
    as Hshift.
  { rewrite Zplus_mod_idemp_l. f_equal. lia. }
  split; [exact Hshift|]. split; [|by intros ->].
  intros Heq. rewrite Heq in Hshift.
  assert ((y - x) mod HASH_SIZE = 0) as H0.
  { rewrite <- (Z.add_simpl_l ((p + y) mod HASH_SIZE) (y - x)).
    rewrite Zminus_mod, <- Hshift, Zmod_mod, Z.sub_diag. reflexivity. }
  unfold is_u8 in *. unfold_consts.
  destruct (decide (x <= y)).
  - rewrite Z.mod_small in H0 by lia. lia.
  - replace (y - x) with (y - x + 1024 + (-1) * 1024) in H0 by lia.
    rewrite Z.mod_add in H0 by lia. rewrite Z.mod_small in H0 by lia. lia.
Qed.

Lemma hash_mac_last_byte_witness :
  hash_mac [1; 2; 3; 4; 5; 200]
  = (hash_mac [1; 2; 3; 4; 5; 6] + (200 - 6)) mod HASH_SIZE
  ∧ (hash_mac [1; 2; 3; 4; 5; 6] = hash_mac [1; 2; 3; 4; 5; 200] ↔ 6 = 200).
Proof.
  apply (hash_mac_last_byte 1 2 3 4 5 6 200); unfold is_u8; lia.
Defined.

(** ** Start-up *)

(** Facts about a log that is a list of known calls. *)
Ltac in_log :=
  by repeat first [apply list_elem_of_here | apply list_elem_of_further].

Ltac trace_facts :=
  intros;
  repeat match goal with
  | H : _ ∨ _ |- _ => destruct H
  | H : ∃ _, _ |- _ => destruct H
  | H : _ ∧ _ |- _ => destruct H
  | H : _ !! _ = Some _ |- _ => apply list_elem_of_lookup_2 in H
  | H : _ ∈ [] |- _ => apply elem_of_nil in H; destruct H
  | H : _ ∈ _ :: _ |- _ => apply elem_of_cons in H as [H|H]
  end;
  simplify_eq;
  try done;
  first
    [ in_log
    | by eexists
    | by split_and!
    | match goal with H : _ ∉ _ |- _ => exfalso; apply H; in_log end
    | idtac ].

(** X14. [main] enters its loop exactly when the UART is ready and
    [bt_enable] and [bt_le_scan_start] succeed, and otherwise returns a code
    that is not zero.  Its calls are, in this order and each at most once,
    [device_is_ready], [bt_enable], [k_timer_start] with the sampling
    interval as delay and as period, and [bt_le_scan_start]: [bt_enable] is
    called only when the UART is ready, the timer and then the scan are
    started only when [bt_enable] has succeeded.  At the first two calls the
    variables are as static initialisation left them, with the buffer
    inactive; when the timer is started, and when the scan is started, the
    table is empty, the header holds the sync pattern, sequence number 0 and
    both counts 0, the buffer is active and the invariant of the program
    holds.  The variables stay so when [bt_le_scan_start] fails; when [main]
    returns earlier they are still as initialised and a report would be
    discarded. *)
Theorem main_trace (device_ready : bool) (bt_enable_err scan_start_err : Z) :
  let out := main device_ready bt_enable_err scan_start_err boot in
  let log := sys_log out.1 in
  let at_call (c : call) (g : globals) :=
    ∃ i : nat, log !! i = Some (c, g) in
  let timer := k_timer_start 7000 7000 in
  (out.2 = inl () ↔ device_ready = true ∧ bt_enable_err = 0 ∧ scan_start_err = 0)
  ∧ (∀ err, out.2 = inr err → err ≠ 0)
  ∧ log.*1 `prefix_of` [device_is_ready; bt_enable; timer; bt_le_scan_start]
  ∧ device_is_ready ∈ log.*1
  ∧ (bt_enable ∈ log.*1 ↔ device_ready = true)
  ∧ (timer ∈ log.*1 ↔ device_ready = true ∧ bt_enable_err = 0)
  ∧ (bt_le_scan_start ∈ log.*1 ↔ device_ready = true ∧ bt_enable_err = 0)
  ∧ (∀ g, at_call device_is_ready g ∨ at_call bt_enable g → g = static_state)
  ∧ (∀ g, at_call timer g ∨ at_call bt_le_scan_start g →
       g = first_window ∧ inv g)
  ∧ (timer ∈ log.*1 → sys_globals out.1 = first_window)
  ∧ (timer ∉ log.*1 →
       sys_globals out.1 = static_state
       ∧ ∀ r, scan_cb (sys_globals out.1) r = Some (sys_globals out.1)).
Proof.
  intros out.
  assert (inv first_window) as Hinv by exact inv_main_init.
  assert ((device_ready = false
           ∧ out = (mk_system static_state [(device_is_ready, static_state)],
                    inr (-1)))
          ∨ (device_ready = true ∧ bt_enable_err ≠ 0
             ∧ out = (mk_system static_state
                        [(device_is_ready, static_state);
                         (bt_enable, static_state)],
                      inr bt_enable_err))
          ∨ (device_ready = true ∧ bt_enable_err = 0
             ∧ out.1 = mk_system first_window
                         [(device_is_ready, static_state);
                          (bt_enable, static_state);
                          (k_timer_start 7000 7000, first_window);
                          (bt_le_scan_start, first_window)]
             ∧ (scan_start_err = 0 ∧ out.2 = inl ()
                ∨ scan_start_err ≠ 0 ∧ out.2 = inr scan_start_err)))
    as Hout.
  { unfold out, main, uart_init, boot.
    cbv [mbind run_bind mret run_ret called return_code assign
         sys_globals sys_log app].
    destruct device_ready; cbn [negb Z.eqb]; [|by left].
    right.
    destruct (Z.eqb_spec bt_enable_err 0) as [->|Hbt]; cbn [negb];
      [|by left].
    right. split; [done|]. split; [done|].
    destruct (Z.eqb_spec scan_start_err 0) as [->|Hsc]; cbn [negb fst snd].
    - split; [done|]. by left.
    - split; [done|]. by right. }
  clearbody out.
  destruct Hout as [(-> & ->)|[(-> & Hbt & ->)|(-> & -> & Hs & Hret)]];
    [| |destruct out as [s ret]; cbn [fst snd] in Hs, Hret; subst s;
        destruct Hret as [[-> ->]|[Hsc ->]]];
    cbn [fst snd sys_globals sys_log fmap list_fmap].
  - split_and!; try by trace_facts.
    all: split; trace_facts.
  - split_and!; try by trace_facts.
    all: split; trace_facts.
  - split_and!; try by trace_facts.
    all: split; trace_facts.
  - split_and!; try by trace_facts.
    all: split; trace_facts.
Qed.

(** ** What a window reports *)

Lemma last_report_seen mac rs :
  mac ∈ seen rs → ∃ r, last_report mac rs = Some r.
Proof.
  unfold seen. induction rs as [|r rs IH]; cbn [fmap list_fmap last_report].
  { by intros ?%elem_of_nil. }
  rewrite elem_of_cons. intros [->|Hin].
  - destruct (last_report (rep_addr r) rs); [by eexists|].
    rewrite bool_decide_eq_true_2 by done. by eexists.
  - destruct (IH Hin) as (r' & ->). by eexists.
Qed.

Lemma last_report_is_seen mac rs r :
  last_report mac rs = Some r → mac ∈ seen rs ∧ rep_addr r = mac.
Proof.
  unfold seen. induction rs as [|r' rs IH]; cbn [fmap list_fmap last_report];
    [done|].
  rewrite elem_of_cons. destruct (last_report mac rs) as [r''|].
  - intros [= ->]. destruct (IH eq_refl). auto.
  - destruct (bool_decide (rep_addr r' = mac)) eqn:Hm; [|done].
    apply bool_decide_eq_true_1 in Hm. intros [= ->]. auto.
Qed.

Lemma elem_occupied_devices g d :
  d ∈ occupied_devices g
  ↔ ∃ (i : nat) e,
      hash_table g !! i = Some e ∧ state e = ENTRY_OCCUPIED ∧ device e = d.
Proof.
  unfold occupied_devices. split.
  - intros Hin. apply list_elem_of_fmap in Hin as (e & -> & Hin).
    apply list_elem_of_In, occupied_lookup in Hin as (j & Hj & Hs).
    by exists j, e.
  - intros (i & e & Hl & Hs & <-).
    apply list_elem_of_fmap_2, list_elem_of_In, filter_In. split.
    + by apply list_elem_of_In, (list_elem_of_lookup_2 _ i).
    + by apply is_occupied_true.
Qed.

(** X15. What a window reports.  If the reports of a window carry at most
    [HASH_SIZE] distinct identifiers, the records of the occupied slots at
    the end of the window are exactly, for each identifier reported, the
    record made of its most recent report (address kind, event kind, signal
    strength, payload cut at 31 bytes and padded) with the number of its
    reports modulo 256. *)
Theorem window_records (g0 : globals) (rs : list adv_report) :
  window_start g0 → Forall wf_report rs →
  (distinct_count rs <= Z.to_nat HASH_SIZE)%nat →
  ∃ g,
    scan_all g0 rs = Some g
    ∧ ∀ d, d ∈ occupied_devices g
           ↔ ∃ mac r,
               last_report mac rs = Some r
               ∧ d = recorded mac r
                       (Z.of_nat (length (reports_of mac rs)) mod 256).
Proof.
  intros Hs Hrs Hfit.
  pose proof (reachable_inv g0 (window_start_reachable g0 Hs)) as Hinv0.
  destruct (tracks_run rs g0 [] (tracks_start g0 Hs) Hrs)
    as (g & Hall & (Hinv & _ & Hagr) & Hnf).
  cbn [app] in *. specialize (Hagr Hfit). specialize (Hnf Hfit).
  exists g. split; [done|].
  assert (∀ mac r, last_report mac rs = Some r →
            record_at g mac
              (recorded mac r (Z.of_nat (length (reports_of mac rs)) mod 256)))
    as Hrec.
  { intros mac r Hlast.
    destruct (scan_all_track mac rs g0 Hinv0 Hrs (Hnf mac))
      as (g1 & Hall1 & _ & Htrack).
    assert (g1 = g) as -> by congruence.
    rewrite Hlast in Htrack. destruct Htrack as (n0 & Hn0 & Hat).
    assert (n0 = 0) as ->.
    { destruct Hn0 as [[_ ->]|(d & Hd & _)]; [done|]. exfalso.
      eapply record_at_not_absent; [exact Hd|]. by apply absent_at_start. }
    by rewrite Z.add_0_l in Hat. }
  intros d. rewrite elem_occupied_devices. split.
  - intros (i & e & Hl & Hso & <-).
    assert (addr (device e) ∈ seen rs) as Hseen.
    { apply Hagr, elem_recorded_addrs. by exists i, e. }
    destruct (last_report_seen _ _ Hseen) as (r & Hlast).
    exists (addr (device e)), r. split; [done|].
    apply (record_at_unique g (addr (device e))); [done| |by apply Hrec].
    by exists i, e.
  - intros (mac & r & Hlast & ->).
    destruct (Hrec mac r Hlast) as (i & e & Hl & [Hso _] & He).
    by exists i, e.
Qed.

Lemma window_records_witness :
  ∃ g,
    scan_all main_init five_reports_list = Some g
    ∧ ∀ d, d ∈ occupied_devices g
           ↔ ∃ mac r,
               last_report mac five_reports_list = Some r
               ∧ d = recorded mac r
                       (Z.of_nat (length (reports_of mac five_reports_list))
                        mod 256).
Proof.
  apply (window_records main_init five_reports_list).
  - apply start_main.
  - apply (bool_decide_unpack _). vm_compute. exact I.
  - vm_compute. lia.
Defined.

(** ** The loop is bounded *)

Lemma probe_more_fuel fuel : ∀ g mac index original res (extra : nat),
  probe fuel g mac index original = Some res →
  probe (fuel + extra) g mac index original = Some res.
Proof.
  induction fuel as [|fuel IH]; intros g mac index original res extra;
    [done|].
  cbn [Nat.add probe].
  destruct (hash_table g !! Z.to_nat index) as [e|]; [|done].
  cbn [mbind option_bind].
  repeat case_match; try done. apply IH.
Qed.

(** X16. The probe loop of [find_or_add_device] ends within [HASH_SIZE]
    iterations for every table of [HASH_SIZE] slots: it returns a result,
    and a larger bound on the iterations gives the same result. *)
Theorem probe_bounded (g : globals) (mac : list Z) (fuel : nat) :
  length (hash_table g) = Z.to_nat HASH_SIZE →
  (Z.to_nat HASH_SIZE <= fuel)%nat →
  ∃ res,
    find_or_add_device g mac = Some res
    ∧ probe fuel g mac (hash_mac mac) (hash_mac mac) = Some res.
Proof.
  intros Hlen Hfuel.
  destruct (find_or_add_device_total g mac Hlen) as [res Hfind].
  exists res. split; [done|]. unfold find_or_add_device in Hfind.
  replace fuel with (Z.to_nat HASH_SIZE + (fuel - Z.to_nat HASH_SIZE))%nat
    by lia.
  by apply probe_more_fuel.
Qed.

Lemma probe_bounded_witness :
  ∃ res,
    find_or_add_device full_state (rep_addr extra_report) = Some res
    ∧ probe 5000 full_state (rep_addr extra_report)
        (hash_mac (rep_addr extra_report)) (hash_mac (rep_addr extra_report))
      = Some res.
Proof.
  apply (probe_bounded full_state (rep_addr extra_report) 5000).
  - vm_compute. reflexivity.
  - vm_compute. lia.
Defined.

(** ** The global variables stay consistent *)

(** X17. In every reachable state [hash_entries] equals [n_mac] and
    both lie between 0 and [MAX_DEVICES]; the sync pattern of the header is
    four bytes [0x55]; [msg_sequence] is one ahead of the sequence number
    of the current window, modulo 256; [n_adv_raw] fits 16 bits; and the
    buffer is active. *)
Theorem globals_consistent (g : globals) :
  reachable g →
  hash_entries g = n_mac (buffer_header g)
  ∧ 0 <= n_mac (buffer_header g) <= MAX_DEVICES
  ∧ header (buffer_header g) = [85; 85; 85; 85]
  ∧ msg_sequence g = (sequence (buffer_header g) + 1) mod 256
  ∧ 0 <= sequence (buffer_header g) < 256
  ∧ 0 <= n_adv_raw (buffer_header g) < 65536
  ∧ buffer_active g = true.
Proof.
  intros Hg.
  destruct (reachable_inv g Hg)
    as (Hlen & _ & _ & Hh & Hseq & Hraw & Hn & Hhe & Hmsg & Hact).
  pose proof (occupied_count_le g Hlen) as Hle.
  unfold is_u8 in Hseq.
  split; [by rewrite Hhe, Hn|].
  split; [rewrite Hn; unfold_consts; lia|].
  split; [exact Hh|]. split; [exact Hmsg|].
  split; [exact Hseq|]. split; [exact Hraw|]. exact Hact.
Qed.

Lemma globals_consistent_witness :
  hash_entries full_state = n_mac (buffer_header full_state)
  ∧ 0 <= n_mac (buffer_header full_state) <= MAX_DEVICES
  ∧ header (buffer_header full_state) = [85; 85; 85; 85]
  ∧ msg_sequence full_state = (sequence (buffer_header full_state) + 1) mod 256
  ∧ 0 <= sequence (buffer_header full_state) < 256
  ∧ 0 <= n_adv_raw (buffer_header full_state) < 65536
  ∧ buffer_active full_state = true.
Proof.
  apply (globals_consistent full_state).
  unfold full_state. apply reachable_default_scan_all.
  - apply reach_main.
  - apply (bool_decide_unpack _). vm_compute. exact I.
Defined.
